(** * System Integration Program: registry, router, health monitor, compute core

    A shallow embedding of [integration_engine.py], [self_healing.py] and
    [quantum_ai_core.py].

    Python dictionaries are insertion-ordered maps; the service records and
    the messages are dictionaries that several holders reference at once
    (the registry, both message logs, the caller, the health monitor), so
    they live in a store of objects and are passed around as locations.
    Methods are written in a state-and-exception monad over that store. *)

From Stdlib Require Import ZArith Lia PrimFloat.
From stdpp Require Import base option list strings relations.

Set Warnings "-inexact-float,-register-all".
Set Default Proof Using "Type".
Local Open Scope string_scope.
Local Open Scope list_scope.
Local Open Scope Z_scope.

(* ===================================================================== *)
(** ** Python values and insertion-ordered dictionaries *)
(* ===================================================================== *)

(** The values that occur in the three modules. The dictionaries that the
    code writes to through several references (service records, messages)
    are objects of the store below. Nested dictionaries ([config],
    [payload], the outputs of the compute core) are plain values: where the
    code keeps a reference to the caller's [config] or [payload] object, the
    model holds a copy. What a caller later does to such an object, or what
    the code does to it when it is itself a service record, is therefore
    not visible in the copy, and the statements below about what an object
    holds speak of its scalar entries (see [scalar]). *)
Inductive pyval : Type :=
  | PNone
  | PBool (b : bool)
  | PInt (n : Z)
  | PFloat (f : float)
  | PStr (s : string)
  | PList (l : list pyval)
  | PDict (d : list (string * pyval)).

(** A [dict] with string keys: the list of its items in insertion order,
    each key at most once. *)
Definition odict (V : Type) : Type := list (string * V).
Abbreviation pydict := (odict pyval).

Section OrderedDict.
Context {V : Type}.

(** [d.get(k)] *)
Fixpoint dict_get (k : string) (d : odict V) : option V :=
  match d with
  | [] => None
  | (k', v) :: d' => if String.eqb k k' then Some v else dict_get k d'
  end.

(** [k in d] *)
Definition dict_mem (k : string) (d : odict V) : bool :=
  match dict_get k d with Some _ => true | None => false end.

(** [d[k] = v]: an existing key keeps its position, a new key goes last. *)
Fixpoint dict_set (k : string) (v : V) (d : odict V) : odict V :=
  match d with
  | [] => [(k, v)]
  | (k', v') :: d' =>
      if String.eqb k k' then (k, v) :: d' else (k', v') :: dict_set k v d'
  end.

Definition dict_keys (d : odict V) : list string := map fst d.
Definition dict_values (d : odict V) : list V := map snd d.
Definition dict_len (d : odict V) : nat := length d.

(** The representation invariant of a dictionary: no key occurs twice. *)
Definition dict_ok (d : odict V) : Prop := NoDup (dict_keys d).
End OrderedDict.

Definition default_of {A : Type} (o : option A) (d : A) : A :=
  match o with Some a => a | None => d end.

(** [x == s] for a string literal [s]: only the string [s] itself is equal. *)
Definition py_eq_str (x : pyval) (s : string) : bool :=
  match x with PStr s' => String.eqb s' s | _ => false end.

(** [d.get(k) != s] *)
Definition get_ne_str (d : pydict) (k s : string) : bool :=
  match dict_get k d with
  | Some v => negb (py_eq_str v s)
  | None => true
  end.

(* ===================================================================== *)
(** ** The object store and the method monad *)
(* ===================================================================== *)

Abbreviation loc := nat (only parsing).

(** The exceptions the modelled code can raise. [BadRef] has no Python
    counterpart: a reference always points at a live object. It is what a
    lookup of an unallocated location gives. *)
Inductive exn : Type :=
  | KeyError (k : string)
  | TypeError
  | AttributeError
  | BadRef (l : loc).

(** [heap]: the dictionary objects; [ticks]: how often the wall clock was
    read; [draws]: how many random numbers were drawn. *)
Record world : Type := World {
  heap : list pydict;
  ticks : nat;
  draws : nat;
}.

(** A method returns a value and leaves a world, or raises. An exception
    is not caught anywhere in the three modules, it ends the call. *)
Inductive outcome (A : Type) : Type :=
  | Ret (a : A) (w : world)
  | Raise (e : exn).
Arguments Ret {A} a w.
Arguments Raise {A} e.

Definition M (A : Type) : Type := world -> outcome A.

#[global] Instance M_ret : MRet M := fun A a w => Ret a w.
#[global] Instance M_bind : MBind M := fun A B f m w =>
  match m w with
  | Ret a w' => f a w'
  | Raise e => Raise e
  end.

Definition raise {A : Type} (e : exn) : M A := fun _ => Raise e.

(** A fresh dictionary object: [{...}] *)
Definition new_dict (d : pydict) : M loc := fun w =>
  Ret (length (heap w)) (World (heap w ++ [d]) (ticks w) (draws w)).

(** Read the object behind a reference. *)
Definition deref (l : loc) : M pydict := fun w =>
  match heap w !! l with
  | Some d => Ret d w
  | None => Raise (BadRef l)
  end.

(** [obj[k]] *)
Definition getitem (l : loc) (k : string) : M pyval :=
  d ← deref l;
  match dict_get k d with
  | Some v => mret v
  | None => raise (KeyError k)
  end.

(** [obj[k] = v] *)
Definition setitem (l : loc) (k : string) (v : pyval) : M unit := fun w =>
  match heap w !! l with
  | Some d => Ret tt (World (<[l := dict_set k v d]> (heap w)) (ticks w) (draws w))
  | None => Raise (BadRef l)
  end.

(** [x + 1] *)
Definition py_add1 (x : pyval) : M pyval :=
  match x with
  | PInt n => mret (PInt (n + 1))
  | PBool b => mret (PInt ((if b then 1 else 0) + 1))
  | PFloat f => mret (PFloat (PrimFloat.add f 1%float))
  | PNone | PStr _ | PList _ | PDict _ => raise TypeError
  end.

(** [x.get(k, default)] on a value: only a dictionary has [get]. *)
Definition py_get (x : pyval) (k : string) (default : pyval) : M pyval :=
  match x with
  | PDict d => mret (default_of (dict_get k d) default)
  | _ => raise AttributeError
  end.

(** [x[k]] on a dictionary value *)
Definition py_getitem (d : pydict) (k : string) : M pyval :=
  match dict_get k d with
  | Some v => mret v
  | None => raise (KeyError k)
  end.

(** [x * y]. Its one use multiplies [best_score] by [confidence], which
    are floats whatever the task is; products of other operands do not
    occur and are left out. *)
Definition py_mul (x y : pyval) : M pyval :=
  match x, y with
  | PFloat a, PFloat b => mret (PFloat (PrimFloat.mul a b))
  | _, _ => raise TypeError
  end.

(** [range(x)]: the number of iterations; [x] has to be an integer. *)
Definition py_range (x : pyval) : M nat :=
  match x with
  | PInt n => mret (Z.to_nat n)
  | PBool b => mret (if b then 1%nat else 0%nat)
  | _ => raise TypeError
  end.

Section Clock.
(** [time.time()]: the [n]-th reading of the wall clock. *)
Variable clock : nat -> float.

Definition time_time : M float := fun w =>
  Ret (clock (ticks w)) (World (heap w) (S (ticks w)) (draws w)).
End Clock.

Section Random.
(** [random.gauss(mu, sigma)]: the [n]-th draw of the generator. *)
Variable gauss : nat -> float -> float -> float.

Definition random_gauss (mu sigma : float) : M float := fun w =>
  Ret (gauss (draws w) mu sigma) (World (heap w) (ticks w) (S (draws w))).
End Random.

(* ===================================================================== *)
(** ** integration_engine.py *)
(* ===================================================================== *)

Module IntegrationEngine.

(** The attributes of an engine. The registry maps a service name to the
    reference of its record; both message logs hold references of message
    objects. *)
Record t : Type := Engine {
  registered_services : odict loc;
  message_queue : list loc;
  processed_messages : list loc;
  integration_log : list loc;
  _start_time : float;
}.

Definition VERSION : string := "2.0.0".

Definition with_registry (self : t) (r : odict loc) : t :=
  Engine r (message_queue self) (processed_messages self)
         (integration_log self) (_start_time self).

(** [self.message_queue.append(m); self.processed_messages.append(m)] *)
Definition log_message (self : t) (m : loc) : t :=
  Engine (registered_services self) (message_queue self ++ [m])
         (processed_messages self ++ [m]) (integration_log self)
         (_start_time self).

(** [config or {}] *)
Definition config_or_empty (config : option pydict) : pydict :=
  match config with
  | Some (item :: items) => item :: items
  | Some [] | None => []
  end.

(** [self.registered_services[target]] *)
Definition lookup_service (self : t) (name : string) : M loc :=
  match dict_get name (registered_services self) with
  | Some r => mret r
  | None => raise (KeyError name)
  end.

(** [len([m for m in queue if m['status'] == 'pending'])] *)
Fixpoint count_pending (queue : list loc) : M nat :=
  match queue with
  | [] => mret 0%nat
  | m :: rest =>
      st ← getitem m "status";
      n ← count_pending rest;
      mret (if py_eq_str st "pending" then S n else n)
  end.

(** [{name: {'type': s['type'], 'status': s['status'],
             'messages': s['message_count']} for name, s in items}] *)
Fixpoint summarise (items : odict loc) : M pydict :=
  match items with
  | [] => mret []
  | (name, s) :: rest =>
      ty ← getitem s "type";
      st ← getitem s "status";
      mc ← getitem s "message_count";
      out ← summarise rest;
      mret ((name, PDict [("type", ty); ("status", st); ("messages", mc)])
              :: out)
  end.

Section Methods.
Variable clock : nat -> float.
(** [round(x, 2)] *)
Variable round2 : float -> float.

Definition __init__ : M t :=
  now ← time_time clock;
  mret (Engine [] [] [] [] now).

Definition register_service (self : t) (name service_type endpoint : string)
    (config : option pydict) : M t :=
  now ← time_time clock;
  r ← new_dict [("type", PStr service_type);
                ("endpoint", PStr endpoint);
                ("config", PDict (config_or_empty config));
                ("status", PStr "active");
                ("registered_at", PFloat now);
                ("message_count", PInt 0)];
  mret (with_registry self (dict_set name r (registered_services self))).

Definition send_message (self : t) (source target : string) (payload : pydict)
    : M (loc * t) :=
  now ← time_time clock;
  message ← new_dict [("source", PStr source);
                      ("target", PStr target);
                      ("payload", PDict payload);
                      ("timestamp", PFloat now);
                      ("status", PStr "pending")];
  (if negb (dict_mem target (registered_services self)) then
     setitem message "status" (PStr "error");;
     setitem message "error" (PStr ("Service " +:+ target +:+ " not registered"))
   else
     setitem message "status" (PStr "delivered");;
     r ← lookup_service self target;
     c ← getitem r "message_count";
     c' ← py_add1 c;
     setitem r "message_count" c');;
  mret (message, log_message self message).

(** The loop of [broadcast] over the names still to visit. [send_message]
    neither adds nor removes a registry key, so the names iterated are those
    present when the loop starts. *)
Fixpoint broadcast_loop (self : t) (source : string) (payload : pydict)
    (names : list string) (results : list loc) : M (list loc * t) :=
  match names with
  | [] => mret (results, self)
  | name :: rest =>
      if negb (String.eqb name source) then
        '(result, self') ← send_message self source name payload;
        broadcast_loop self' source payload rest (results ++ [result])
      else broadcast_loop self source payload rest results
  end.

Definition broadcast (self : t) (source : string) (payload : pydict)
    : M (list loc * t) :=
  broadcast_loop self source payload (dict_keys (registered_services self)) [].

Definition get_service_status (self : t) (name : string) : option loc :=
  dict_get name (registered_services self).

Definition get_integration_report (self : t) : M pydict :=
  now ← time_time clock;
  let uptime := PrimFloat.sub now (_start_time self) in
  pending ← count_pending (message_queue self);
  svcs ← summarise (registered_services self);
  mret [("version", PStr VERSION);
        ("uptime_seconds", PFloat (round2 uptime));
        ("services_registered",
           PInt (Z.of_nat (dict_len (registered_services self))));
        ("messages_processed",
           PInt (Z.of_nat (length (processed_messages self))));
        ("pending_messages", PInt (Z.of_nat pending));
        ("services", PDict svcs)].

End Methods.
End IntegrationEngine.

(* ===================================================================== *)
(** ** self_healing.py *)
(* ===================================================================== *)

Module SelfHealing.

Record t : Type := Healer {
  check_interval : float;
  health_status : string;
  fault_log : list pydict;
  repairs : list pydict;
  _start_time : float;
}.

Definition VERSION : string := "2.0.0".

Definition with_status (self : t) (st : string) : t :=
  Healer (check_interval self) st (fault_log self) (repairs self)
         (_start_time self).

(** [self.fault_log.extend(issues)] *)
Definition extend_fault_log (self : t) (issues : list pydict) : t :=
  Healer (check_interval self) (health_status self)
         (fault_log self ++ issues) (repairs self) (_start_time self).

(** [self.repairs.extend(repairs)] *)
Definition extend_repairs (self : t) (rs : list pydict) : t :=
  Healer (check_interval self) (health_status self) (fault_log self)
         (repairs self ++ rs) (_start_time self).

Definition inactive_issue (name : string) : pydict :=
  [("service", PStr name); ("issue", PStr "inactive");
   ("severity", PStr "warning")].

Definition reactivated (name : string) (now : float) : pydict :=
  [("service", PStr name); ("action", PStr "reactivated");
   ("timestamp", PFloat now)].

(** The loop of [check_health] over [services.items()]. *)
Fixpoint find_issues (items : odict loc) (issues : list pydict)
    : M (list pydict) :=
  match items with
  | [] => mret issues
  | (name, service) :: rest =>
      d ← deref service;
      if get_ne_str d "status" "active"
      then find_issues rest (issues ++ [inactive_issue name])
      else find_issues rest issues
  end.

(** [[s for s in services.values() if s.get('status') != 'active']] *)
Fixpoint not_active (values : list loc) : M (list loc) :=
  match values with
  | [] => mret []
  | s :: rest =>
      d ← deref s;
      out ← not_active rest;
      mret (if get_ne_str d "status" "active" then s :: out else out)
  end.

Section Methods.
Variable clock : nat -> float.
Variable round2 : float -> float.

Definition __init__ (check_interval : float) : M t :=
  now ← time_time clock;
  mret (Healer check_interval "healthy" [] [] now).

Definition check_health (self : t) (services : odict loc) : M (pydict * t) :=
  issues ← find_issues services [];
  let self' :=
    match issues with
    | _ :: _ => extend_fault_log (with_status self "degraded") issues
    | [] => with_status self "healthy"
    end in
  now ← time_time clock;
  mret ([("status", PStr (health_status self'));
         ("issues", PList (map PDict issues));
         ("services_checked", PInt (Z.of_nat (dict_len services)));
         ("timestamp", PFloat now)], self').

(** The loop of [auto_repair] over [services.items()]. *)
Fixpoint repair_loop (items : odict loc) (rs : list pydict)
    : M (list pydict) :=
  match items with
  | [] => mret rs
  | (name, service) :: rest =>
      d ← deref service;
      if get_ne_str d "status" "active" then
        setitem service "status" (PStr "active");;
        now ← time_time clock;
        repair_loop rest (rs ++ [reactivated name now])
      else repair_loop rest rs
  end.

Definition auto_repair (self : t) (services : odict loc)
    : M (list pydict * t) :=
  rs ← repair_loop services [];
  let self' := extend_repairs self rs in
  remaining ← not_active (dict_values services);
  mret (rs, match remaining with
            | [] => with_status self' "healthy"
            | _ :: _ => self'
            end).

Definition get_report (self : t) : M pydict :=
  now ← time_time clock;
  let uptime := PrimFloat.sub now (_start_time self) in
  mret [("version", PStr VERSION);
        ("status", PStr (health_status self));
        ("uptime_seconds", PFloat (round2 uptime));
        ("faults_detected", PInt (Z.of_nat (length (fault_log self))));
        ("repairs_executed", PInt (Z.of_nat (length (repairs self))))].

End Methods.
End SelfHealing.

(* ===================================================================== *)
(** ** quantum_ai_core.py *)
(* ===================================================================== *)

Module QuantumAICore.

Record t : Type := Core {
  config : pydict;
  processing_log : list pydict;
  models_loaded : pydict;
  quantum_backend : pyval;
  optimization_level : pyval;
  _start_time : float;
  total_operations : Z;
}.

Definition VERSION : string := "2.0.6".

(** [self.processing_log.append(result); self.total_operations += 1] *)
Definition record_result (self : t) (result : pydict) : t :=
  Core (config self) (processing_log self ++ [result]) (models_loaded self)
       (quantum_backend self) (optimization_level self) (_start_time self)
       (total_operations self + 1).

Definition cooling_rate : float := 0.99%float.

Section Methods.
Variable clock : nat -> float.
Variable gauss : nat -> float -> float -> float.
Variable round2 : float -> float.
(** [str(x)] for a value that is not a string. *)
Variable str_of : pyval -> string.

(** [f'{x}'] *)
Definition format (x : pyval) : string :=
  match x with PStr s => s | _ => str_of x end.

Definition __init__ (config : option pydict) : M t :=
  let cfg := default_of config [] in
  now ← time_time clock;
  mret (Core cfg [] []
             (default_of (dict_get "quantum_backend" cfg) (PStr "simulator"))
             (default_of (dict_get "optimization_level" cfg) (PInt 2))
             now 0).

(** The annealing loop: [n] iterations still to run. *)
Fixpoint anneal (n : nat) (objective : pyval) (best_score temperature : float)
    : M (float * float) :=
  match n with
  | O => mret (best_score, temperature)
  | S n' =>
      candidate_score ← random_gauss gauss 0%float temperature;
      let best_score' :=
        if py_eq_str objective "minimize"
           && PrimFloat.ltb candidate_score best_score
        then candidate_score
        else if py_eq_str objective "maximize"
                && PrimFloat.ltb best_score candidate_score
        then candidate_score
        else best_score in
      anneal n' objective best_score' (PrimFloat.mul temperature cooling_rate)
  end.

Definition _quantum_optimize (data params : pyval) : M pydict :=
  objective ← py_get data "objective" (PStr "minimize");
  dimensions ← py_get data "dimensions" (PInt 4);
  iterations ← py_get params "iterations" (PInt 100);
  let best_score :=
    if py_eq_str objective "minimize"
    then PrimFloat.infinity else PrimFloat.neg_infinity in
  n ← py_range iterations;
  '(best_score, temperature) ← anneal n objective best_score 1%float;
  mret [("best_score", PFloat best_score);
        ("iterations", iterations);
        ("final_temperature", PFloat temperature);
        ("method", PStr "quantum_annealing_sim")].

Definition _ml_inference (data params : pyval) : M pydict :=
  model_name ← py_get params "model" (PStr "default");
  mret [("model", model_name);
        ("prediction", PStr "inference_placeholder");
        ("confidence", PFloat 0.95%float)].

Definition _hybrid_compute (data params : pyval) : M pydict :=
  quantum_result ← _quantum_optimize data params;
  classical_result ← _ml_inference data params;
  q ← py_getitem quantum_result "best_score";
  c ← py_getitem classical_result "confidence";
  hybrid_score ← py_mul q c;
  mret [("quantum", PDict quantum_result);
        ("classical", PDict classical_result);
        ("hybrid_score", hybrid_score)].

Definition health_check (self : t) : M pydict :=
  now ← time_time clock;
  let uptime := PrimFloat.sub now (_start_time self) in
  mret [("version", PStr VERSION);
        ("status", PStr "healthy");
        ("uptime_seconds", PFloat (round2 uptime));
        ("total_operations", PInt (total_operations self));
        ("quantum_backend", quantum_backend self);
        ("optimization_level", optimization_level self);
        ("models_loaded", PInt (Z.of_nat (dict_len (models_loaded self))))].

Definition process (self : t) (task : pydict) : M (pydict * t) :=
  start ← time_time clock;
  let task_type := default_of (dict_get "type" task) (PStr "unknown") in
  let data := default_of (dict_get "data" task) (PDict []) in
  let params := default_of (dict_get "parameters" task) (PDict []) in
  now ← time_time clock;
  let result := [("task_type", task_type);
                 ("status", PStr "completed");
                 ("timestamp", PFloat now)] in
  result ←
    (if py_eq_str task_type "quantum_optimize" then
       out ← _quantum_optimize data params;
       mret (dict_set "output" (PDict out) result)
     else if py_eq_str task_type "ml_inference" then
       out ← _ml_inference data params;
       mret (dict_set "output" (PDict out) result)
     else if py_eq_str task_type "hybrid_compute" then
       out ← _hybrid_compute data params;
       mret (dict_set "output" (PDict out) result)
     else if py_eq_str task_type "health_check" then
       out ← health_check self;
       mret (dict_set "output" (PDict out) result)
     else
       mret (dict_set "error"
               (PStr ("Unknown task type: " +:+ format task_type))
               (dict_set "status" (PStr "error") result)));
  finish ← time_time clock;
  let result := dict_set "duration" (PFloat (PrimFloat.sub finish start)) result in
  mret (result, record_result self result).

End Methods.
End QuantumAICore.

(* ===================================================================== *)
(** ** Well-formed states and reachable states *)
(* ===================================================================== *)

(** The value of key [k] of the object at [l]. *)
Definition field (w : world) (l : loc) (k : string) : option pyval :=
  match heap w !! l with
  | Some d => dict_get k d
  | None => None
  end.

(** Every reference of a registry points at a live object, as every
    Python reference does. *)
Definition refs_ok (w : world) (services : odict loc) : Prop :=
  ∀ l, l ∈ dict_values services → is_Some (heap w !! l).

(** The record at [l] has status 'active'. *)
Definition is_active (w : world) (l : loc) : bool :=
  match field w l "status" with
  | Some (PStr s) => String.eqb s "active"
  | _ => false
  end.

(** The names of the services that are not active, in iteration order. *)
Definition inactive_names (w : world) (services : odict loc) : list string :=
  dict_keys (List.filter (λ item, negb (is_active w (snd item))) services).

(** A registry proper: one record object per name. Every registry that
    [register_service] builds is one (see [reachable_registry_ok]); a
    dictionary that binds two names to one and the same object is not. *)
Definition one_record_per_name (services : odict loc) : Prop :=
  dict_ok services ∧ NoDup (dict_values services).

(** A record as [register_service] creates it and as the methods keep it:
    it has a type, a status and an integer message counter. *)
Definition service_record (d : pydict) : Prop :=
  is_Some (dict_get "type" d) ∧ is_Some (dict_get "status" d) ∧
  ∃ n : Z, dict_get "message_count" d = Some (PInt n).

Definition registry_ok (w : world) (reg : odict loc) : Prop :=
  one_record_per_name reg ∧
  ∀ r, r ∈ dict_values reg → ∃ d, heap w !! r = Some d ∧ service_record d.

Definition delivered_or_error (w : world) (m : loc) : Prop :=
  field w m "status" = Some (PStr "delivered") ∨
  field w m "status" = Some (PStr "error").

(** The record of a registered service and its message counter. *)
Definition record_of (w : world) (self : IntegrationEngine.t) (name : string)
    : option pydict :=
  match dict_get name (IntegrationEngine.registered_services self) with
  | Some r => heap w !! r
  | None => None
  end.

Definition message_count_of (w : world) (self : IntegrationEngine.t)
    (name : string) : option pyval :=
  match record_of w self name with
  | Some d => dict_get "message_count" d
  | None => None
  end.

Definition registered (self : IntegrationEngine.t) (name : string) : Prop :=
  is_Some (dict_get name (IntegrationEngine.registered_services self)).

Section Reachable.
Variable clock : nat -> float.
Variable round2 : float -> float.

(** The states of an engine and the store it lives in that the program can
    reach: the engine is constructed in some store, then its methods are
    called, and the health monitor is run on its registry. *)
Inductive reachable : world → IntegrationEngine.t → Prop :=
  | reach_init w0 w e :
      IntegrationEngine.__init__ clock w0 = Ret e w →
      reachable w e
  | reach_register w e name ty endpoint config w' e' :
      reachable w e →
      IntegrationEngine.register_service clock e name ty endpoint config w
        = Ret e' w' →
      reachable w' e'
  | reach_send w e source target payload m w' e' :
      reachable w e →
      IntegrationEngine.send_message clock e source target payload w
        = Ret (m, e') w' →
      reachable w' e'
  | reach_broadcast w e source payload ms w' e' :
      reachable w e →
      IntegrationEngine.broadcast clock e source payload w = Ret (ms, e') w' →
      reachable w' e'
  | reach_report w e rep w' :
      reachable w e →
      IntegrationEngine.get_integration_report clock round2 e w = Ret rep w' →
      reachable w' e
  | reach_check_health w e h rep h' w' :
      reachable w e →
      SelfHealing.check_health clock h
        (IntegrationEngine.registered_services e) w = Ret (rep, h') w' →
      reachable w' e
  | reach_auto_repair w e h rs h' w' :
      reachable w e →
      SelfHealing.auto_repair clock h
        (IntegrationEngine.registered_services e) w = Ret (rs, h') w' →
      reachable w' e
  | reach_mark w e name r status w' :
      (* the caller marks a service through the record that
         [get_service_status] hands out; the engine has no method for it,
         and it is how a service comes to be not active. Messages, in
         contrast, are not written to once [send_message] has returned. *)
      reachable w e →
      IntegrationEngine.get_service_status e name = Some r →
      setitem r "status" status w = Ret tt w' →
      reachable w' e.
End Reachable.

(** What holds in every reachable state: the registry is well formed, the
    two message logs are the same list of objects, and a logged message is
    resolved and is not a service record. *)
Definition engine_inv (w : world) (e : IntegrationEngine.t) : Prop :=
  registry_ok w (IntegrationEngine.registered_services e) ∧
  IntegrationEngine.message_queue e = IntegrationEngine.processed_messages e ∧
  ∀ m, m ∈ IntegrationEngine.message_queue e →
    delivered_or_error w m ∧
    m ∉ dict_values (IntegrationEngine.registered_services e).

(** The monitor after a check that found [issues]. *)
Definition checked (self : SelfHealing.t) (issues : list pydict)
    : SelfHealing.t :=
  match issues with
  | _ :: _ =>
      SelfHealing.extend_fault_log
        (SelfHealing.with_status self "degraded") issues
  | [] => SelfHealing.with_status self "healthy"
  end.

(** The names a broadcast from [source] goes to: all but [source]. *)
Definition others (source : string) (names : list string) : list string :=
  List.filter (λ name, negb (String.eqb name source)) names.

(** The message object that [send_message] leaves in the store. *)
Definition message_sent (source target : string) (payload : pydict)
    (now : float) (registered : bool) : pydict :=
  [("source", PStr source); ("target", PStr target);
   ("payload", PDict payload); ("timestamp", PFloat now)] ++
  (if registered then [("status", PStr "delivered")]
   else [("status", PStr "error");
         ("error", PStr ("Service " +:+ target +:+ " not registered"))]).

(* ===================================================================== *)
(** ** A sample run *)
(* ===================================================================== *)

(** A clock that advances by one second per reading. *)
Fixpoint sample_clock (n : nat) : float :=
  match n with
  | O => 0%float
  | S n' => PrimFloat.add (sample_clock n') 1%float
  end.

Definition sample_round2 (x : float) : float := x.
Definition sample_gauss (n : nat) (mu sigma : float) : float := mu.
Definition sample_str_of (x : pyval) : string := "<object>".

Definition sample_record (ty status : string) (at_ : float) (count : Z)
    : pydict :=
  [("type", PStr ty); ("endpoint", PStr ""); ("config", PDict []);
   ("status", PStr status); ("registered_at", PFloat at_);
   ("message_count", PInt count)].

(** The state after constructing an engine in the empty store, registering
    'A' and 'B', sending from 'A' to 'B' and to an unregistered 'Z', and
    marking 'B' inactive. *)
Definition sample_engine : IntegrationEngine.t :=
  IntegrationEngine.Engine [("A", 0%nat); ("B", 1%nat)]
    [2%nat; 3%nat] [2%nat; 3%nat] [] 0%float.

Definition sample_world : world :=
  World [sample_record "db" "active" 1%float 0;
         sample_record "api" "inactive" 2%float 1;
         [("source", PStr "A"); ("target", PStr "B"); ("payload", PDict []);
          ("timestamp", PFloat 3%float); ("status", PStr "delivered")];
         [("source", PStr "A"); ("target", PStr "Z"); ("payload", PDict []);
          ("timestamp", PFloat 4%float); ("status", PStr "error");
          ("error", PStr "Service Z not registered")]] 5 0.

Definition sample_monitor : SelfHealing.t :=
  SelfHealing.Healer 5%float "degraded" [] [] 0%float.

Definition sample_core : QuantumAICore.t :=
  QuantumAICore.Core [] [] [] (PStr "simulator") (PInt 2) 0%float 0.

(* ===================================================================== *)
(** ** Runs of the program *)
(* ===================================================================== *)

Section Steps.
Variable clock : nat -> float.
Variable round2 : float -> float.

(** One call on an engine and its store: a method of the engine, the health
    monitor on the engine's registry, or the caller marking a service. *)
Inductive engine_step
    : world * IntegrationEngine.t → world * IntegrationEngine.t → Prop :=
  | step_register w e name ty endpoint config w' e' :
      IntegrationEngine.register_service clock e name ty endpoint config w
        = Ret e' w' →
      engine_step (w, e) (w', e')
  | step_send w e source target payload m w' e' :
      IntegrationEngine.send_message clock e source target payload w
        = Ret (m, e') w' →
      engine_step (w, e) (w', e')
  | step_broadcast w e source payload ms w' e' :
      IntegrationEngine.broadcast clock e source payload w = Ret (ms, e') w' →
      engine_step (w, e) (w', e')
  | step_report w e rep w' :
      IntegrationEngine.get_integration_report clock round2 e w = Ret rep w' →
      engine_step (w, e) (w', e)
  | step_check_health w e h rep h' w' :
      SelfHealing.check_health clock h
        (IntegrationEngine.registered_services e) w = Ret (rep, h') w' →
      engine_step (w, e) (w', e)
  | step_auto_repair w e h rs h' w' :
      SelfHealing.auto_repair clock h
        (IntegrationEngine.registered_services e) w = Ret (rs, h') w' →
      engine_step (w, e) (w', e)
  | step_mark w e name r status w' :
      IntegrationEngine.get_service_status e name = Some r →
      setitem r "status" status w = Ret tt w' →
      engine_step (w, e) (w', e).
End Steps.

Section CoreRuns.
Variable clock : nat -> float.
Variable gauss : nat -> float -> float -> float.
Variable round2 : float -> float.
Variable str_of : pyval -> string.

(** The states of a compute core: constructed, then [process] called any
    number of times, each call in whatever world it finds. *)
Inductive core_reachable : QuantumAICore.t → Prop :=
  | core_init config w0 c w :
      QuantumAICore.__init__ clock config w0 = Ret c w →
      core_reachable c
  | core_process c task w result c' w' :
      core_reachable c →
      QuantumAICore.process clock gauss round2 str_of c task w
        = Ret (result, c') w' →
      core_reachable c'.
End CoreRuns.

(** The temperature after [n] iterations of the annealing loop. *)
Fixpoint cooled (n : nat) (temperature : float) : float :=
  match n with
  | O => temperature
  | S n' => cooled n' (PrimFloat.mul temperature QuantumAICore.cooling_rate)
  end.

(** How many times [range(x)] iterates, when [x] is an integer. *)
Definition iterations_of (x : pyval) : option nat :=
  match x with
  | PInt n => Some (Z.to_nat n)
  | PBool b => Some (if b then 1%nat else 0%nat)
  | _ => None
  end.

(** The score the annealing loop starts from. *)
Definition initial_score (objective : pyval) : float :=
  if py_eq_str objective "minimize"
  then PrimFloat.infinity else PrimFloat.neg_infinity.

(** The message at [m] went to [name] and was delivered. *)
Definition delivered_to (w : world) (name : string) (m : loc) : bool :=
  match field w m "target", field w m "status" with
  | Some (PStr t), Some (PStr s) => String.eqb t name && String.eqb s "delivered"
  | _, _ => false
  end.

(** How many messages of [log] were delivered to [name] after the record
    object [r] was created: objects are created in the order of their
    locations. *)
Definition deliveries_since (w : world) (log : list loc) (name : string)
    (r : loc) : nat :=
  length (List.filter (λ m, Nat.ltb r m && delivered_to w name m) log).

Definition counts_ok (w : world) (e : IntegrationEngine.t) : Prop :=
  ∀ name r,
    dict_get name (IntegrationEngine.registered_services e) = Some r →
    field w r "message_count" =
      Some (PInt (Z.of_nat (deliveries_since w
                              (IntegrationEngine.processed_messages e)
                              name r))).

(** A value that nobody can change behind its holder's back: anything but
    a list or a dictionary. *)
Definition scalar (v : pyval) : Prop :=
  match v with
  | PList _ | PDict _ => False
  | _ => True
  end.

(** A compute core configured with a backend, after an unknown task and an
    inference task. *)
Definition sample_core_used : QuantumAICore.t :=
  QuantumAICore.Core
    [("quantum_backend", PStr "ibmq")]
    [[("task_type", PStr "train_model"); ("status", PStr "error");
      ("timestamp", PFloat 2%float);
      ("error", PStr "Unknown task type: train_model");
      ("duration", PFloat 2%float)];
     [("task_type", PStr "ml_inference"); ("status", PStr "completed");
      ("timestamp", PFloat 5%float);
      ("output", PDict [("model", PStr "default");
                        ("prediction", PStr "inference_placeholder");
                        ("confidence", PFloat 0.95%float)]);
      ("duration", PFloat 2%float)]]
    [] (PStr "ibmq") (PInt 2) 0%float 2.

(** The summary of a service record in the integration report. *)
Definition summary_of (d : pydict) : option pyval :=
  match dict_get "type" d, dict_get "status" d, dict_get "message_count" d with
  | Some ty, Some st, Some mc =>
      Some (PDict [("type", ty); ("status", st); ("messages", mc)])
  | _, _, _ => None
  end.

(** The sample state one call later: 'A' has sent to 'B' once more. *)
Definition sample_engine_sent : IntegrationEngine.t :=
  IntegrationEngine.Engine [("A", 0%nat); ("B", 1%nat)]
    [2%nat; 3%nat; 4%nat] [2%nat; 3%nat; 4%nat] [] 0%float.

Definition sample_world_sent : world :=
  World [sample_record "db" "active" 1%float 0;
         sample_record "api" "inactive" 2%float 2;
         [("source", PStr "A"); ("target", PStr "B"); ("payload", PDict []);
          ("timestamp", PFloat 3%float); ("status", PStr "delivered")];
         [("source", PStr "A"); ("target", PStr "Z"); ("payload", PDict []);
          ("timestamp", PFloat 4%float); ("status", PStr "error");
          ("error", PStr "Service Z not registered")];
         [("source", PStr "A"); ("target", PStr "B"); ("payload", PDict []);
          ("timestamp", PFloat 5%float); ("status", PStr "delivered")]] 6 0.

(* ===================================================================== *)
(** ** Facts about ordered dictionaries *)
(* ===================================================================== *)

Section OrderedDictFacts.
Context {V : Type}.
Implicit Types (k : string) (v : V) (d : odict V).

Lemma dict_get_set_eq k v d : dict_get k (dict_set k v d) = Some v.
Proof.
  induction d as [|[k' v'] d IH]; simpl.
  - by rewrite String.eqb_refl.
  - destruct (String.eqb_spec k k') as [->|Hne]; simpl.
    + by rewrite String.eqb_refl.
    + by apply String.eqb_neq in Hne as ->.
Qed.

Lemma dict_get_set_ne k k' v d :
  k ≠ k' → dict_get k' (dict_set k v d) = dict_get k' d.
Proof.
  intros Hne. induction d as [|[k0 v0] d IH]; simpl.
  - destruct (String.eqb_spec k' k); congruence.
  - destruct (String.eqb_spec k k0) as [->|Hk]; simpl.
    + destruct (String.eqb_spec k' k0); congruence.
    + by rewrite IH.
Qed.

Lemma dict_get_None k d : dict_get k d = None ↔ k ∉ dict_keys d.
Proof.
  induction d as [|[k' v'] d IH]; simpl.
  - split; [intros _; apply not_elem_of_nil | done].
  - rewrite not_elem_of_cons.
    destruct (String.eqb_spec k k') as [->|Hne].
    + split; [done|]. by intros [? _].
    + rewrite IH. tauto.
Qed.

Lemma dict_get_Some_elem k v d : dict_get k d = Some v → (k, v) ∈ d.
Proof.
  induction d as [|[k' v'] d IH]; simpl; [done|].
  destruct (String.eqb_spec k k') as [->|Hne].
  - intros [= ->]. apply list_elem_of_here.
  - intros H. apply list_elem_of_further. auto.
Qed.

Lemma dict_elem_get k v d : dict_ok d → (k, v) ∈ d → dict_get k d = Some v.
Proof.
  unfold dict_ok. induction d as [|[k' v'] d IH]; simpl.
  - intros _ H. by apply elem_of_nil in H.
  - intros Hnd H. apply NoDup_cons in Hnd as [Hk Hnd].
    apply elem_of_cons in H as [[= -> ->]|H].
    + by rewrite String.eqb_refl.
    + destruct (String.eqb_spec k k') as [->|Hne]; [|by apply IH].
      exfalso. apply Hk. change k' with (fst (k', v)).
      by apply list_elem_of_fmap_2.
Qed.

Lemma dict_mem_true k d : dict_mem k d = true ↔ is_Some (dict_get k d).
Proof.
  unfold dict_mem. destruct (dict_get k d); split; try done.
Qed.

Lemma dict_mem_keys k d : dict_mem k d = true ↔ k ∈ dict_keys d.
Proof.
  rewrite dict_mem_true. destruct (dict_get k d) eqn:E.
  - split; [intros _|by eexists].
    apply dict_get_Some_elem in E. change k with (fst (k, v)).
    by apply list_elem_of_fmap_2.
  - apply dict_get_None in E. split; [by intros [? ?]|done].
Qed.

(** Assigning to a key that is present keeps the keys and their order. *)
Lemma dict_keys_set_present k v d :
  is_Some (dict_get k d) → dict_keys (dict_set k v d) = dict_keys d.
Proof.
  induction d as [|[k' v'] d IH]; simpl.
  - by intros [? ?].
  - destruct (String.eqb_spec k k') as [->|Hne]; simpl; [done|].
    intros H. by rewrite IH.
Qed.

(** Assigning to a new key appends it. *)
Lemma dict_keys_set_absent k v d :
  dict_get k d = None → dict_keys (dict_set k v d) = dict_keys d ++ [k].
Proof.
  induction d as [|[k' v'] d IH]; simpl; [done|].
  destruct (String.eqb_spec k k') as [->|Hne]; simpl; [done|].
  intros H. by rewrite IH.
Qed.

Lemma dict_len_set_present k v d :
  is_Some (dict_get k d) → dict_len (dict_set k v d) = dict_len d.
Proof.
  intros H. apply (dict_keys_set_present k v) in H.
  unfold dict_len. unfold dict_keys in H.
  by rewrite <- (length_map fst), H, length_map.
Qed.

Lemma dict_ok_set k v d : dict_ok d → dict_ok (dict_set k v d).
Proof.
  unfold dict_ok. intros Hok. destruct (dict_get k d) eqn:E.
  - by rewrite dict_keys_set_present.
  - rewrite dict_keys_set_absent by done.
    apply NoDup_app. split_and!; [done| |apply NoDup_singleton].
    intros x Hx Hx'. apply list_elem_of_singleton in Hx' as ->.
    by apply dict_get_None in E.
Qed.

Lemma dict_values_set_elem k v d x :
  x ∈ dict_values (dict_set k v d) → x = v ∨ x ∈ dict_values d.
Proof.
  induction d as [|[k' v'] d IH]; simpl.
  - intros H. apply list_elem_of_singleton in H. by left.
  - destruct (String.eqb_spec k k') as [->|Hne]; simpl;
      rewrite !elem_of_cons; intros [->|H]; auto.
    destruct (IH H); auto.
Qed.

Lemma dict_values_set_NoDup k v d :
  NoDup (dict_values d) → v ∉ dict_values d →
  NoDup (dict_values (dict_set k v d)).
Proof.
  induction d as [|[k' v'] d IH]; simpl.
  - intros _ _. apply NoDup_singleton.
  - rewrite NoDup_cons, not_elem_of_cons. intros [Hv' Hnd] [Hne Hv].
    destruct (String.eqb_spec k k') as [->|Hk]; simpl.
    + by apply NoDup_cons.
    + apply NoDup_cons. split; [|by apply IH].
      intros H. apply dict_values_set_elem in H as [->|H]; done.
Qed.

Lemma dict_get_values k v d : dict_get k d = Some v → v ∈ dict_values d.
Proof.
  intros H. apply dict_get_Some_elem in H. change v with (snd (k, v)).
  by apply list_elem_of_fmap_2.
Qed.

(** Two keys of a dictionary whose values are pairwise distinct hold
    different values. *)
Lemma dict_get_inj k k' v d :
  NoDup (dict_values d) →
  dict_get k d = Some v → dict_get k' d = Some v → k = k'.
Proof.
  induction d as [|[k0 v0] d IH]; simpl; [done|].
  rewrite NoDup_cons. intros [Hv0 Hnd].
  destruct (String.eqb_spec k k0) as [->|Hk];
    destruct (String.eqb_spec k' k0) as [->|Hk']; try done.
  - intros [= ->] H. by apply dict_get_values in H.
  - intros H [= ->]. by apply dict_get_values in H.
  - by apply IH.
Qed.

End OrderedDictFacts.

(* ===================================================================== *)
(** ** Facts about the store *)
(* ===================================================================== *)

Lemma insert_at_end {A : Type} (h : list A) (x y : A) :
  <[length h := y]> (h ++ [x]) = h ++ [y].
Proof.
  rewrite insert_app_r_alt by lia. by rewrite Nat.sub_diag.
Qed.

Lemma lookup_at_end {A : Type} (h : list A) (x : A) :
  (h ++ [x]) !! length h = Some x.
Proof. rewrite lookup_app_r by lia. by rewrite Nat.sub_diag. Qed.

Lemma lookup_extend {A : Type} (h : list A) (x y : A) (l : nat) :
  h !! l = Some x → (h ++ [y]) !! l = Some x.
Proof. intros H. rewrite lookup_app_l; [done|]. by eapply lookup_lt_Some. Qed.

(* ===================================================================== *)
(** ** send_message and register_service, as equations *)
(* ===================================================================== *)

Section EngineFacts.
Variable clock : nat -> float.
Variable round2 : float -> float.
Import IntegrationEngine.

Lemma send_message_unregistered self source target payload w :
  dict_get target (registered_services self) = None →
  send_message clock self source target payload w =
    Ret (length (heap w), log_message self (length (heap w)))
        (World (heap w ++ [message_sent source target payload
                             (clock (ticks w)) false])
               (S (ticks w)) (draws w)).
Proof.
  intros Hget. unfold send_message, dict_mem. rewrite Hget.
  unfold mbind, M_bind, mret, M_ret, time_time, new_dict, setitem. simpl.
  rewrite lookup_at_end, insert_at_end. simpl.
  rewrite lookup_at_end, insert_at_end. done.
Qed.

Lemma send_message_registered self source target payload w r d n :
  dict_get target (registered_services self) = Some r →
  heap w !! r = Some d →
  dict_get "message_count" d = Some (PInt n) →
  send_message clock self source target payload w =
    Ret (length (heap w), log_message self (length (heap w)))
        (World (<[r := dict_set "message_count" (PInt (n + 1)) d]>
                  (heap w ++ [message_sent source target payload
                                (clock (ticks w)) true]))
               (S (ticks w)) (draws w)).
Proof.
  intros Hget Hr Hn. unfold send_message, dict_mem, lookup_service.
  rewrite Hget.
  unfold mbind, M_bind, mret, M_ret, time_time, new_dict, setitem, getitem,
    deref, mbind, M_bind. simpl.
  rewrite lookup_at_end, insert_at_end. simpl.
  rewrite (lookup_extend _ _ _ _ Hr). rewrite Hn. simpl.
  rewrite (lookup_extend _ _ _ _ Hr). done.
Qed.

Lemma register_service_eq self name ty endpoint config w :
  register_service clock self name ty endpoint config w =
    Ret (with_registry self
           (dict_set name (length (heap w)) (registered_services self)))
        (World (heap w ++ [[("type", PStr ty);
                            ("endpoint", PStr endpoint);
                            ("config", PDict (config_or_empty config));
                            ("status", PStr "active");
                            ("registered_at", PFloat (clock (ticks w)));
                            ("message_count", PInt 0)]])
               (S (ticks w)) (draws w)).
Proof. reflexivity. Qed.

Lemma config_or_empty_default config :
  config_or_empty config = default_of config [].
Proof. by destruct config as [[|? ?]|]. Qed.

(** C4. Registering a name that is already registered returns normally,
    keeps the registry's names (so its size: no second entry appears), and
    binds the name to a record that holds the new type, endpoint and config
    (an omitted config being the empty one), status 'active' and a message
    count of 0. *)
Theorem register_service_again self name ty endpoint config w :
  registered self name →
  ∃ self' w',
    register_service clock self name ty endpoint config w = Ret self' w' ∧
    dict_len (registered_services self') = dict_len (registered_services self) ∧
    dict_keys (registered_services self') = dict_keys (registered_services self) ∧
    ∃ d, record_of w' self' name = Some d ∧
         dict_get "type" d = Some (PStr ty) ∧
         dict_get "endpoint" d = Some (PStr endpoint) ∧
         dict_get "config" d = Some (PDict (default_of config [])) ∧
         dict_get "status" d = Some (PStr "active") ∧
         dict_get "message_count" d = Some (PInt 0).
Proof.
  intros Hreg. rewrite register_service_eq. do 2 eexists. split; [done|].
  simpl. split; [by apply dict_len_set_present|].
  split; [by apply dict_keys_set_present|].
  unfold record_of. simpl. rewrite dict_get_set_eq, lookup_at_end.
  eexists. split; [done|]. by rewrite config_or_empty_default.
Qed.

Lemma registry_ok_lt w reg r :
  registry_ok w reg → r ∈ dict_values reg → (r < length (heap w))%nat.
Proof.
  intros [_ Hrec] Hr. destruct (Hrec r Hr) as (d & Hd & _).
  by eapply lookup_lt_Some.
Qed.

Lemma service_record_count d c :
  service_record d → service_record (dict_set "message_count" (PInt c) d).
Proof.
  intros (Hty & Hst & _). unfold service_record.
  rewrite !dict_get_set_ne by done. split_and!; [done|done|].
  exists c. apply dict_get_set_eq.
Qed.

Lemma service_record_status d v :
  service_record d → service_record (dict_set "status" v d).
Proof.
  intros (Hty & Hst & n & Hn). unfold service_record.
  rewrite dict_get_set_eq, dict_get_set_ne by done.
  split_and!; [done|by eexists|].
  exists n. by rewrite dict_get_set_ne.
Qed.

(** What one delivery does to the store: the message is the new last
    object, the target's counter goes up by one, nothing else changes. *)
Lemma send_message_delivers self source target payload w r :
  registry_ok w (registered_services self) →
  dict_get target (registered_services self) = Some r →
  ∃ d n w',
    heap w !! r = Some d ∧ dict_get "message_count" d = Some (PInt n) ∧
    send_message clock self source target payload w =
      Ret (length (heap w), log_message self (length (heap w))) w' ∧
    heap w' !! length (heap w) =
      Some (message_sent source target payload (clock (ticks w)) true) ∧
    heap w' !! r = Some (dict_set "message_count" (PInt (n + 1)) d) ∧
    length (heap w') = S (length (heap w)) ∧
    (∀ l, (l < length (heap w))%nat → l ≠ r → heap w' !! l = heap w !! l) ∧
    registry_ok w' (registered_services self).
Proof.
  intros Hok Hget. pose proof Hok as [Hone Hrec].
  pose proof (dict_get_values _ _ _ Hget) as Hr.
  destruct (Hrec r Hr) as (d & Hd & Hsr).
  pose proof Hsr as (_ & _ & n & Hn).
  pose proof (lookup_lt_Some _ _ _ Hd) as Hlt.
  exists d, n. eexists. split_and!; [done|done| |..].
  - by eapply send_message_registered.
  - simpl. rewrite list_lookup_insert_ne by lia. apply lookup_at_end.
  - simpl. apply list_lookup_insert_eq. rewrite length_app. simpl. lia.
  - simpl. rewrite length_insert, length_app. simpl. lia.
  - intros l Hl Hne. simpl. rewrite list_lookup_insert_ne by done.
    by rewrite lookup_app_l.
  - split; [done|]. intros r' Hr'. simpl.
    destruct (decide (r' = r)) as [->|Hne].
    + eexists. split; [|by apply service_record_count].
      apply list_lookup_insert_eq. rewrite length_app. simpl. lia.
    + destruct (Hrec r' Hr') as (d' & Hd' & Hsr'). exists d'. split; [|done].
      rewrite list_lookup_insert_ne by done. by apply lookup_extend.
Qed.

(** The same in terms of the counters of the registered services. *)
Lemma send_message_counts self source target payload w r :
  registry_ok w (registered_services self) →
  dict_get target (registered_services self) = Some r →
  ∃ n w',
    send_message clock self source target payload w =
      Ret (length (heap w), log_message self (length (heap w))) w' ∧
    message_count_of w self target = Some (PInt n) ∧
    message_count_of w' (log_message self (length (heap w))) target
      = Some (PInt (n + 1)) ∧
    ∀ name, name ≠ target →
      record_of w' (log_message self (length (heap w))) name
        = record_of w self name.
Proof.
  intros Hok Hget.
  destruct (send_message_delivers self source target payload w r Hok Hget)
    as (d & n & w' & Hd & Hn & Hsend & Hm & Hr & _ & Hframe & _).
  exists n, w'. split; [done|]. split_and!.
  - unfold message_count_of, record_of. by rewrite Hget, Hd.
  - unfold message_count_of, record_of. simpl. rewrite Hget, Hr.
    apply dict_get_set_eq.
  - intros name Hname. unfold record_of. simpl.
    destruct (dict_get name (registered_services self)) as [r'|] eqn:Hget';
      [|done].
    apply Hframe.
    + eapply registry_ok_lt; [done|]. by eapply dict_get_values.
    + intros ->. apply Hname. destruct Hok as [[_ Hnd] _].
      by eapply dict_get_inj.
Qed.

(** C1. Sending to a registered target returns a message with status
    'delivered', adds exactly 1 to the target's message counter and leaves
    the record of every other service as it was. Sending to a target that
    is not registered returns a message with status 'error' whose error
    detail names the target, and leaves every service record as it was. *)
Theorem send_message_outcome self source target payload w :
  registry_ok w (registered_services self) →
  ∃ m self' w',
    send_message clock self source target payload w = Ret (m, self') w' ∧
    registered_services self' = registered_services self ∧
    (registered self target →
     field w' m "status" = Some (PStr "delivered") ∧
     (∃ n, message_count_of w self target = Some (PInt n) ∧
           message_count_of w' self' target = Some (PInt (n + 1))) ∧
     ∀ name, name ≠ target →
       record_of w' self' name = record_of w self name) ∧
    (¬ registered self target →
     field w' m "status" = Some (PStr "error") ∧
     field w' m "error" =
       Some (PStr ("Service " +:+ target +:+ " not registered")) ∧
     ∀ name, record_of w' self' name = record_of w self name).
Proof.
  intros Hok.
  destruct (dict_get target (registered_services self)) as [r|] eqn:Hget.
  - destruct (send_message_delivers self source target payload w r Hok Hget)
      as (d & n0 & w' & _ & _ & Hsend & Hm & _).
    destruct (send_message_counts self source target payload w r Hok Hget)
      as (n & w'' & Hsend' & Hn & Hn' & Hothers).
    assert (w'' = w') as -> by congruence.
    exists (length (heap w)), (log_message self (length (heap w))), w'.
    split; [done|]. split; [done|].
    split; [intros _|intros []; by eexists]. split_and!.
    + unfold field. by rewrite Hm.
    + by exists n.
    + done.
  - do 3 eexists. split; [by apply send_message_unregistered|].
    split; [done|].
    split; [intros [? ?]; unfold registered in *; congruence|intros _].
    unfold field. simpl. rewrite lookup_at_end. split_and!; [done|done|].
    intros name. unfold record_of. simpl.
    destruct (dict_get name (registered_services self)) as [r'|] eqn:Hget';
      [|done].
    apply lookup_app_l. eapply registry_ok_lt; [done|].
    by eapply dict_get_values.
Qed.

Lemma message_count_of_record w w' self self' name :
  record_of w' self' name = record_of w self name →
  message_count_of w' self' name = message_count_of w self name.
Proof. unfold message_count_of. by intros ->. Qed.

Lemma others_cons source name rest :
  others source (name :: rest) =
    if String.eqb name source then others source rest
    else name :: others source rest.
Proof. unfold others. simpl. by destruct (String.eqb name source). Qed.

Lemma others_elem source names name :
  name ∈ others source names ↔ name ∈ names ∧ name ≠ source.
Proof.
  unfold others. rewrite !list_elem_of_In, filter_In, negb_true_iff.
  by rewrite String.eqb_neq.
Qed.

(** The loop of [broadcast], from any point of the iteration on. *)
Lemma broadcast_loop_spec source payload names : ∀ self results w,
  registry_ok w (registered_services self) →
  NoDup names →
  (∀ name, name ∈ names → registered self name) →
  ∃ ms self' w',
    broadcast_loop clock self source payload names results w
      = Ret (results ++ ms, self') w' ∧
    registered_services self' = registered_services self ∧
    message_queue self' = message_queue self ++ ms ∧
    processed_messages self' = processed_messages self ++ ms ∧
    registry_ok w' (registered_services self) ∧
    Forall2 (λ m name,
               (length (heap w) ≤ m)%nat ∧ (m < length (heap w'))%nat ∧
               ∃ now, heap w' !! m
                        = Some (message_sent source name payload now true))
            ms (others source names) ∧
    (∀ name n, name ∈ others source names →
       message_count_of w self name = Some (PInt n) →
       message_count_of w' self' name = Some (PInt (n + 1))) ∧
    (∀ name, name ∉ others source names →
       record_of w' self' name = record_of w self name) ∧
    (∀ l, (l < length (heap w))%nat →
       l ∉ dict_values (registered_services self) →
       heap w' !! l = heap w !! l) ∧
    (length (heap w) ≤ length (heap w'))%nat.
Proof.
  induction names as [|name rest IH]; intros self results w Hok Hnd Hreg.
  { exists [], self, w. simpl. rewrite !app_nil_r.
    split_and!; try done; try constructor.
    intros name n Hin. by apply elem_of_nil in Hin. }
  apply NoDup_cons in Hnd as [Hname Hnd].
  assert (∀ name', name' ∈ rest → registered self name') as Hreg'
    by (intros name' Hin; by apply Hreg, list_elem_of_further).
  rewrite others_cons. cbn [broadcast_loop].
  destruct (String.eqb_spec name source) as [->|Hne]; cbn [negb].
  { exact (IH self results w Hok Hnd Hreg'). }
  destruct (Hreg name) as [r Hget]; [apply list_elem_of_here|].
  destruct (send_message_delivers self source name payload w r Hok Hget)
    as (d & n0 & w1 & Hd & _ & Hsend & Hm & _ & Hlen1 & Hframe & Hok1).
  destruct (send_message_counts self source name payload w r Hok Hget)
    as (n1 & w1' & Hsend' & Hn1 & Hn1' & Hothers).
  assert (w1' = w1) as -> by congruence.
  set (m1 := length (heap w)) in *. set (self1 := log_message self m1) in *.
  destruct (IH self1 (results ++ [m1]) w1 Hok1 Hnd Hreg')
    as (ms & self' & w' & Hrun & Hreg2 & Hq & Hp & Hok' & Hms & Hcnt & Hrec
        & Hfr & Hlen').
  assert (m1 ∉ dict_values (registered_services self)) as Hm1.
  { intros Hin. pose proof (registry_ok_lt _ _ _ Hok Hin). unfold m1 in *. lia. }
  exists (m1 :: ms), self', w'. split_and!.
  - unfold mbind, M_bind. rewrite Hsend. rewrite Hrun.
    by rewrite <- app_assoc.
  - done.
  - rewrite Hq. simpl. by rewrite <- app_assoc.
  - rewrite Hp. simpl. by rewrite <- app_assoc.
  - done.
  - constructor.
    + split_and!; [done|lia|]. eexists.
      rewrite Hfr; [done|lia|done].
    + eapply Forall2_impl; [done|]. simpl.
      intros m name' (? & ? & ?). split_and!; [lia|done|done].
  - intros name' n Hin Hn. apply elem_of_cons in Hin as [->|Hin].
    + rewrite (message_count_of_record w1 w' self1 self' name).
      * congruence.
      * apply Hrec. rewrite others_elem. tauto.
    + apply Hcnt; [done|].
      rewrite (message_count_of_record w w1 self self1 name'); [done|].
      apply Hothers. apply others_elem in Hin as [Hin _]. congruence.
  - intros name' Hout. apply not_elem_of_cons in Hout as [Hne' Hout].
    rewrite Hrec by done. by apply Hothers.
  - intros l Hl Hout. rewrite Hfr; [|lia|done]. apply Hframe; [done|].
    intros ->. apply Hout. by eapply dict_get_values.
  - lia.
Qed.

Lemma others_absent source names :
  source ∉ names → others source names = names.
Proof.
  induction names as [|name rest IH]; [done|].
  rewrite not_elem_of_cons, others_cons. intros [Hne Hout].
  destruct (String.eqb_spec name source); [congruence|]. by rewrite IH.
Qed.

Lemma others_length source names :
  NoDup names → source ∈ names →
  length (others source names) = (length names - 1)%nat.
Proof.
  induction names as [|name rest IH]; intros Hnd Hin.
  - by apply elem_of_nil in Hin.
  - apply NoDup_cons in Hnd as [Hname Hnd]. rewrite others_cons.
    destruct (String.eqb_spec name source) as [->|Hne].
    + rewrite others_absent by done. simpl. lia.
    + apply elem_of_cons in Hin as [->|Hin]; [done|]. simpl.
      rewrite IH by done. destruct rest; [by apply elem_of_nil in Hin|].
      simpl. lia.
Qed.

Lemma registered_count w self name :
  registry_ok w (registered_services self) → registered self name →
  ∃ n, message_count_of w self name = Some (PInt n).
Proof.
  intros [_ Hrec] [r Hget].
  destruct (Hrec r) as (d & Hd & _ & _ & n & Hn); [by eapply dict_get_values|].
  exists n. unfold message_count_of, record_of. by rewrite Hget, Hd.
Qed.

(** C5. With N services registered, the source among them, a broadcast
    returns N-1 messages: one to each registered service other than the
    source, in the registry's iteration order, each with status
    'delivered'; and the message counter of each of these services goes up
    by exactly 1. *)
Theorem broadcast_delivers self source payload w :
  registry_ok w (registered_services self) →
  registered self source →
  ∃ ms self' w',
    broadcast clock self source payload w = Ret (ms, self') w' ∧
    registered_services self' = registered_services self ∧
    length ms = (dict_len (registered_services self) - 1)%nat ∧
    Forall2 (λ m name,
               field w' m "target" = Some (PStr name) ∧
               field w' m "status" = Some (PStr "delivered"))
            ms (others source (dict_keys (registered_services self))) ∧
    ∀ name, registered self name → name ≠ source →
      ∃ n, message_count_of w self name = Some (PInt n) ∧
           message_count_of w' self' name = Some (PInt (n + 1)).
Proof.
  intros Hok Hsrc. pose proof Hok as [[Hkeys _] _].
  destruct (broadcast_loop_spec source payload
              (dict_keys (registered_services self)) self [] w Hok Hkeys)
    as (ms & self' & w' & Hrun & Hsame & _ & _ & _ & Hms & Hcnt & _).
  { intros name Hin. by apply dict_mem_true, dict_mem_keys. }
  exists ms, self', w'. split_and!.
  - done.
  - done.
  - rewrite (Forall2_length _ _ _ Hms). unfold dict_len.
    rewrite others_length; [|done|by apply dict_mem_keys, dict_mem_true].
    unfold dict_keys. by rewrite length_map.
  - eapply Forall2_impl; [done|]. simpl.
    intros m name (_ & _ & now & Hm). unfold field. by rewrite Hm.
  - intros name Hreg Hne.
    destruct (registered_count w self name Hok Hreg) as [n Hn].
    exists n. split; [done|]. apply Hcnt; [|done].
    apply others_elem. split; [|done]. by apply dict_mem_keys, dict_mem_true.
Qed.

End EngineFacts.

(* ===================================================================== *)
(** ** The health monitor *)
(* ===================================================================== *)

Lemma is_active_spec w l :
  is_active w l = true ↔ field w l "status" = Some (PStr "active").
Proof.
  unfold is_active. destruct (field w l "status") as [[]|]; try done.
  destruct (String.eqb_spec s "active") as [->|Hne]; split; congruence.
Qed.

Lemma get_ne_str_is_active w l d :
  heap w !! l = Some d →
  get_ne_str d "status" "active" = negb (is_active w l).
Proof.
  intros Hd. unfold is_active, field, get_ne_str. rewrite Hd.
  by destruct (dict_get "status" d) as [[]|].
Qed.

Lemma is_active_heap w w' l :
  heap w' !! l = heap w !! l → is_active w' l = is_active w l.
Proof. unfold is_active, field. by intros ->. Qed.

Lemma inactive_names_cons w name l rest :
  inactive_names w ((name, l) :: rest) =
    if is_active w l then inactive_names w rest
    else name :: inactive_names w rest.
Proof. unfold inactive_names. simpl. by destruct (is_active w l). Qed.

Lemma inactive_names_ext w w' services :
  (∀ l, l ∈ dict_values services → heap w' !! l = heap w !! l) →
  inactive_names w' services = inactive_names w services.
Proof.
  induction services as [|[name l] rest IH]; [done|]. intros Hext.
  rewrite !inactive_names_cons.
  rewrite (is_active_heap w w' l) by (apply Hext, list_elem_of_here).
  rewrite IH; [done|]. intros l' Hl'. by apply Hext, list_elem_of_further.
Qed.

Lemma inactive_names_nil w services :
  inactive_names w services = [] ↔
  ∀ l, l ∈ dict_values services → field w l "status" = Some (PStr "active").
Proof.
  induction services as [|[name l] rest IH].
  - split; [|done]. intros _ l Hl. by apply elem_of_nil in Hl.
  - rewrite inactive_names_cons. simpl. split.
    + destruct (is_active w l) eqn:E; [|done]. intros Hnil l' Hl'.
      apply elem_of_cons in Hl' as [->|Hl'].
      * by apply is_active_spec.
      * by apply IH.
    + intros Hall.
      assert (is_active w l = true) as ->
        by apply is_active_spec, Hall, list_elem_of_here.
      apply IH. intros l' Hl'. by apply Hall, list_elem_of_further.
Qed.

(** A name is listed once for each of its entries whose record is not
    active. *)
Lemma inactive_names_elem w services name :
  name ∈ inactive_names w services ↔
  ∃ l, (name, l) ∈ services ∧ field w l "status" ≠ Some (PStr "active").
Proof.
  induction services as [|[name' l'] rest IH].
  - split; [intros H; by apply elem_of_nil in H|].
    intros (l & H & _). by apply elem_of_nil in H.
  - rewrite inactive_names_cons.
    assert (is_active w l' = false ↔
            field w l' "status" ≠ Some (PStr "active")) as Hina.
    { rewrite <- is_active_spec. by destruct (is_active w l'). }
    destruct (is_active w l') eqn:Hact.
    + rewrite IH. split; intros (l & Hin & Hst); exists l; (split; [|done]).
      * by apply list_elem_of_further.
      * apply elem_of_cons in Hin as [[= -> ->]|Hin]; [|done].
        apply Hina in Hst. done.
    + rewrite elem_of_cons, IH. split.
      * intros [->|(l & Hin & Hst)].
        -- exists l'. split; [apply list_elem_of_here|by apply Hina].
        -- exists l. split; [by apply list_elem_of_further|done].
      * intros (l & Hin & Hst).
        apply elem_of_cons in Hin as [[= -> ->]|Hin]; [by left|].
        right. by exists l.
Qed.

Lemma refs_ok_cons w name l rest :
  refs_ok w ((name, l) :: rest) →
  (∃ d, heap w !! l = Some d) ∧ refs_ok w rest.
Proof.
  intros H. split.
  - apply H, list_elem_of_here.
  - intros l' Hl'. by apply H, list_elem_of_further.
Qed.

Lemma refs_ok_length w w' services :
  length (heap w') = length (heap w) → refs_ok w services → refs_ok w' services.
Proof.
  intros Hlen Hok l Hl. apply lookup_lt_is_Some. rewrite Hlen.
  apply lookup_lt_is_Some. by apply Hok.
Qed.

Section HealthFacts.
Variable clock : nat -> float.
Import SelfHealing.

Lemma find_issues_eq services issues w :
  refs_ok w services →
  find_issues services issues w =
    Ret (issues ++ map inactive_issue (inactive_names w services)) w.
Proof.
  revert issues. induction services as [|[name l] rest IH]; intros issues Hok.
  - simpl. by rewrite app_nil_r.
  - apply refs_ok_cons in Hok as [[d Hd] Hok]. simpl.
    unfold mbind, M_bind, deref. rewrite Hd.
    rewrite (get_ne_str_is_active w l d Hd), inactive_names_cons.
    destruct (is_active w l); simpl; rewrite IH by done; [done|].
    by rewrite <- app_assoc.
Qed.

Lemma not_active_eq services w :
  refs_ok w services →
  not_active (dict_values services) w =
    Ret (List.filter (λ l, negb (is_active w l)) (dict_values services)) w.
Proof.
  induction services as [|[name l] rest IH]; intros Hok; [done|].
  apply refs_ok_cons in Hok as [[d Hd] Hok]. simpl.
  unfold mbind, M_bind, deref. rewrite Hd. fold (dict_values rest).
  rewrite IH by done. rewrite (get_ne_str_is_active w l d Hd).
  by destruct (is_active w l).
Qed.

Lemma check_health_eq self services w :
  refs_ok w services →
  let issues := map inactive_issue (inactive_names w services) in
  check_health clock self services w =
    Ret ([("status", PStr (health_status (checked self issues)));
          ("issues", PList (map PDict issues));
          ("services_checked", PInt (Z.of_nat (dict_len services)));
          ("timestamp", PFloat (clock (ticks w)))],
         checked self issues)
        (World (heap w) (S (ticks w)) (draws w)).
Proof.
  intros Hok issues. unfold check_health, mbind, M_bind.
  by rewrite find_issues_eq.
Qed.

(** C3. When every service is active the report says 'healthy' and lists
    no issue. When some service is not active the report says 'degraded',
    lists one issue of kind 'inactive' and severity 'warning' per service
    that is not active, in iteration order, and these issues are appended to
    the fault log. *)
Theorem check_health_report self services w :
  refs_ok w services →
  ∃ rep self' w',
    check_health clock self services w = Ret (rep, self') w' ∧
    ((∀ l, l ∈ dict_values services →
        field w l "status" = Some (PStr "active")) →
     dict_get "status" rep = Some (PStr "healthy") ∧
     dict_get "issues" rep = Some (PList []) ∧
     health_status self' = "healthy" ∧
     fault_log self' = fault_log self) ∧
    ((∃ l, l ∈ dict_values services ∧
        field w l "status" ≠ Some (PStr "active")) →
     let issues :=
       map (λ name, [("service", PStr name); ("issue", PStr "inactive");
                     ("severity", PStr "warning")])
           (inactive_names w services) in
     dict_get "status" rep = Some (PStr "degraded") ∧
     dict_get "issues" rep = Some (PList (map PDict issues)) ∧
     health_status self' = "degraded" ∧
     fault_log self' = fault_log self ++ issues).
Proof.
  intros Hok. rewrite check_health_eq by done. do 3 eexists.
  split; [done|]. split.
  - intros Hall. apply inactive_names_nil in Hall. by rewrite Hall.
  - intros (l & Hl & Hst).
    destruct (inactive_names w services) as [|name names] eqn:E; [|done].
    exfalso. apply Hst. by eapply inactive_names_nil.
Qed.

(** C7. A health check leaves every object of the store as it was, so no
    field of any service record changes; of the monitor only the health
    status and the fault log may change. *)
Theorem check_health_frame self services w :
  refs_ok w services →
  ∃ rep self' w',
    check_health clock self services w = Ret (rep, self') w' ∧
    heap w' = heap w ∧
    check_interval self' = check_interval self ∧
    repairs self' = repairs self ∧
    _start_time self' = _start_time self.
Proof.
  intros Hok. rewrite check_health_eq by done. do 3 eexists.
  split; [done|]. simpl.
  by destruct (inactive_names w services).
Qed.

Lemma is_active_set w l d :
  heap w !! l = Some (dict_set "status" (PStr "active") d) →
  is_active w l = true.
Proof.
  intros H. apply is_active_spec. unfold field. rewrite H.
  apply dict_get_set_eq.
Qed.

(** The sweep of [auto_repair]. The last part, the list of repair actions,
    is for registries with one record per name. *)
Lemma repair_loop_spec services : ∀ rs w,
  refs_ok w services →
  ∃ rs' w',
    repair_loop clock services rs w = Ret (rs ++ rs') w' ∧
    length (heap w') = length (heap w) ∧
    (∀ l, l ∈ dict_values services → is_active w' l = true) ∧
    (∀ l, is_active w l = true → heap w' !! l = heap w !! l) ∧
    (∀ l d, l ∈ dict_values services → heap w !! l = Some d →
       is_active w l = false →
       heap w' !! l = Some (dict_set "status" (PStr "active") d)) ∧
    (∀ l, l ∉ dict_values services → heap w' !! l = heap w !! l) ∧
    (NoDup (dict_values services) →
     rs' = imap (λ i name, reactivated name (clock (ticks w + i)%nat))
                (inactive_names w services)).
Proof.
  induction services as [|[name l] rest IH]; intros rs w Hok.
  { exists [], w. simpl. rewrite app_nil_r. split_and!; try done.
    - intros l Hl. by apply elem_of_nil in Hl.
    - intros l d Hl. by apply elem_of_nil in Hl. }
  apply refs_ok_cons in Hok as [[d Hd] Hok]. simpl.
  unfold mbind at 1, M_bind at 1, deref. rewrite Hd.
  rewrite (get_ne_str_is_active w l d Hd).
  destruct (is_active w l) eqn:Hact; simpl.
  - destruct (IH rs w Hok)
      as (rs' & w' & Hrun & Hlen & Hall & Hkeep & Hfix & Hout & Hrs).
    exists rs', w'. split_and!; try done.
    + intros l' Hl'. apply elem_of_cons in Hl' as [->|Hl']; [|by apply Hall].
      by rewrite (is_active_heap w w' l) by by apply Hkeep.
    + intros l' d' Hl' Hd' Hina. apply elem_of_cons in Hl' as [->|Hl'].
      * congruence.
      * by apply Hfix.
    + intros l' Hl'. apply not_elem_of_cons in Hl' as [_ Hl']. by apply Hout.
    + intros Hnd. apply NoDup_cons in Hnd as [_ Hnd].
      rewrite inactive_names_cons, Hact. by apply Hrs.
  - unfold mbind, M_bind, setitem, time_time. rewrite Hd. simpl.
    set (d1 := dict_set "status" (PStr "active") d).
    set (w2 := World (<[l:=d1]> (heap w)) (S (ticks w)) (draws w)).
    pose proof (lookup_lt_Some _ _ _ Hd) as Hlt.
    assert (heap w2 !! l = Some d1) as Hl2
      by (by apply list_lookup_insert_eq).
    assert (∀ l', l' ≠ l → heap w2 !! l' = heap w !! l') as Hne2
      by (intros l' Hne; by apply list_lookup_insert_ne).
    assert (refs_ok w2 rest) as Hok2.
    { eapply refs_ok_length; [|done]. apply length_insert. }
    destruct (IH (rs ++ [reactivated name (clock (ticks w))]) w2 Hok2)
      as (rs' & w' & Hrun & Hlen & Hall & Hkeep & Hfix & Hout & Hrs).
    exists (reactivated name (clock (ticks w)) :: rs'), w'.
    fold (repair_loop clock). split_and!.
    + rewrite Hrun. by rewrite <- app_assoc.
    + rewrite Hlen. apply length_insert.
    + intros l' Hl'. apply elem_of_cons in Hl' as [->|Hl']; [|by apply Hall].
      rewrite (is_active_heap w2 w' l) by (apply Hkeep; by eapply is_active_set).
      by eapply is_active_set.
    + intros l' Hl'. assert (l' ≠ l) as Hne by (intros ->; congruence).
      rewrite <- (Hne2 l' Hne). apply Hkeep.
      by rewrite (is_active_heap w w2 l') by by apply Hne2.
    + intros l' d' Hl' Hd' Hina. destruct (decide (l' = l)) as [->|Hne].
      * rewrite Hkeep by by eapply is_active_set.
        assert (d' = d) as -> by congruence. exact Hl2.
      * apply elem_of_cons in Hl' as [->|Hl']; [done|]. apply Hfix; [done|..].
        -- by rewrite Hne2.
        -- by rewrite (is_active_heap w w2 l') by by apply Hne2.
    + intros l' Hl'. apply not_elem_of_cons in Hl' as [Hne Hl'].
      rewrite Hout by done. by apply Hne2.
    + intros Hnd. apply NoDup_cons in Hnd as [Hl Hnd].
      rewrite inactive_names_cons, Hact. simpl. f_equal.
      { by rewrite Nat.add_0_r. }
      rewrite (Hrs Hnd). rewrite (inactive_names_ext w w2).
      * apply imap_ext. intros i x _. simpl. do 2 f_equal. lia.
      * intros l' Hl'. apply Hne2. by intros ->.
Qed.

Lemma filter_none {A : Type} (f : A → bool) (xs : list A) :
  (∀ x, x ∈ xs → f x = false) → List.filter f xs = [].
Proof.
  induction xs as [|x xs IH]; [done|]. intros H. simpl.
  rewrite (H x) by apply list_elem_of_here.
  apply IH. intros y Hy. by apply H, list_elem_of_further.
Qed.

(** [auto_repair] as a whole: it returns, and it returns in the branch
    that sets the health status. *)
Lemma auto_repair_spec self services w :
  refs_ok w services →
  ∃ rs w',
    auto_repair clock self services w =
      Ret (rs, with_status (extend_repairs self rs) "healthy") w' ∧
    refs_ok w' services ∧
    (∀ l, l ∈ dict_values services → is_active w' l = true) ∧
    (∀ l, is_active w l = true → heap w' !! l = heap w !! l) ∧
    (∀ l d, l ∈ dict_values services → heap w !! l = Some d →
       is_active w l = false →
       heap w' !! l = Some (dict_set "status" (PStr "active") d)) ∧
    (∀ l, l ∉ dict_values services → heap w' !! l = heap w !! l) ∧
    (NoDup (dict_values services) →
     rs = imap (λ i name, reactivated name (clock (ticks w + i)%nat))
               (inactive_names w services)).
Proof.
  intros Hok.
  destruct (repair_loop_spec services [] w Hok)
    as (rs & w' & Hrun & Hlen & Hall & Hkeep & Hfix & Hout & Hrs).
  assert (refs_ok w' services) as Hok' by by eapply refs_ok_length.
  exists rs, w'. split_and!; try done.
  unfold auto_repair, mbind, M_bind. rewrite Hrun. simpl.
  rewrite not_active_eq by done. rewrite filter_none; [done|].
  intros l Hl. by rewrite Hall.
Qed.

(** C9. Whatever the monitor's state and the registry (two names may
    even share a record), [auto_repair] returns with the monitor's health
    status equal to 'healthy': after the sweep every service is active, so
    the list of services that are not active is empty. *)
Theorem auto_repair_healthy self services w :
  refs_ok w services →
  ∃ rs self' w',
    auto_repair clock self services w = Ret (rs, self') w' ∧
    health_status self' = "healthy" ∧
    (∀ l, l ∈ dict_values services →
       field w' l "status" = Some (PStr "active")) ∧
    not_active (dict_values services) w' = Ret [] w'.
Proof.
  intros Hok. destruct (auto_repair_spec self services w Hok)
    as (rs & w' & Hrun & Hok' & Hall & _).
  exists rs, (with_status (extend_repairs self rs) "healthy"), w'.
  split_and!; [done|done| |].
  - intros l Hl. by apply is_active_spec, Hall.
  - rewrite not_active_eq by done. rewrite filter_none; [done|].
    intros l Hl. by rewrite Hall.
Qed.

(** C2. On a registry with one record per name, [auto_repair] sets the
    status of every service that is not active to 'active' (the rest of the
    record stays), so that every service is active afterwards; it returns
    one repair action with action 'reactivated' per service that was not
    active, in iteration order; and a health check that follows on the same
    registry reports 'healthy' with no issue. *)
Theorem auto_repair_reactivates self services w :
  one_record_per_name services →
  refs_ok w services →
  ∃ rs self' w',
    auto_repair clock self services w = Ret (rs, self') w' ∧
    (∀ l d, l ∈ dict_values services → heap w !! l = Some d →
       field w l "status" ≠ Some (PStr "active") →
       heap w' !! l = Some (dict_set "status" (PStr "active") d)) ∧
    (∀ l, l ∈ dict_values services →
       field w' l "status" = Some (PStr "active")) ∧
    rs = imap (λ i name, [("service", PStr name);
                          ("action", PStr "reactivated");
                          ("timestamp", PFloat (clock (ticks w + i)%nat))])
              (inactive_names w services) ∧
    ∀ monitor, ∃ rep monitor' w'',
      check_health clock monitor services w' = Ret (rep, monitor') w'' ∧
      dict_get "status" rep = Some (PStr "healthy") ∧
      dict_get "issues" rep = Some (PList []).
Proof.
  intros [_ Hnd] Hok. destruct (auto_repair_spec self services w Hok)
    as (rs & w' & Hrun & Hok' & Hall & _ & Hfix & _ & Hrs).
  exists rs, (with_status (extend_repairs self rs) "healthy"), w'.
  split_and!; [done| | |by apply Hrs|].
  - intros l d Hl Hd Hst. apply Hfix; [done|done|].
    destruct (is_active w l) eqn:E; [|done]. by apply is_active_spec in E.
  - intros l Hl. by apply is_active_spec, Hall.
  - intros monitor. rewrite check_health_eq by done.
    assert (inactive_names w' services = []) as ->.
    { apply inactive_names_nil. intros l Hl. by apply is_active_spec, Hall. }
    by do 3 eexists.
Qed.

(** Why the list of repair actions is stated for one record per name: a
    dictionary that binds two names to one record object is swept entry by
    entry, and the second entry finds the shared record already active. *)
Remark auto_repair_shared_record :
  let w := World [[("status", PStr "inactive")]] 0 0 in
  let services := [("a", 0%nat); ("b", 0%nat)] in
  inactive_names w services = ["a"; "b"] ∧
  ∃ self' w',
    auto_repair clock (Healer 5%float "degraded" [] [] 0%float) services w
      = Ret ([reactivated "a" (clock 0%nat)], self') w'.
Proof. split; [reflexivity|]. do 2 eexists. vm_compute. reflexivity. Qed.

End HealthFacts.

(* ===================================================================== *)
(** ** The compute core *)
(* ===================================================================== *)

Lemma py_eq_str_spec v s : py_eq_str v s = true ↔ v = PStr s.
Proof.
  destruct v; simpl; try done.
  destruct (String.eqb_spec s0 s) as [->|Hne]; split; congruence.
Qed.

Lemma py_eq_str_ne v s : v ≠ PStr s → py_eq_str v s = false.
Proof.
  intros Hne. destruct (py_eq_str v s) eqn:E; [|done].
  by apply py_eq_str_spec in E.
Qed.

(** A computation that returns went through both halves of a bind. *)
Lemma bind_Ret {A B : Type} (m : M A) (f : A → M B) w b w' :
  (m ≫= f) w = Ret b w' → ∃ a w1, m w = Ret a w1 ∧ f a w1 = Ret b w'.
Proof.
  unfold mbind, M_bind. destruct (m w) as [a w1|e]; [|done]. eauto.
Qed.

Section CoreFacts.
Variable clock : nat -> float.
Variable gauss : nat -> float -> float -> float.
Variable round2 : float -> float.
Variable str_of : pyval -> string.
Import QuantumAICore.

(** Every call of [process] that returns has appended its result to the
    processing log and counted one more operation. *)
Lemma process_records self task w result self' w' :
  process clock gauss round2 str_of self task w = Ret (result, self') w' →
  processing_log self' = processing_log self ++ [result] ∧
  total_operations self' = total_operations self + 1.
Proof.
  unfold process. intros H.
  apply bind_Ret in H as (start & w1 & _ & H).
  apply bind_Ret in H as (now & w2 & _ & H).
  apply bind_Ret in H as (res & w3 & _ & H).
  apply bind_Ret in H as (finish & w4 & _ & H).
  injection H as <- <- <-. done.
Qed.

(** C8. A task whose type tag is none of the four known ones (a missing
    tag counts as 'unknown') makes [process] return, not raise: the result
    has status 'error' and an error message that names the type, it is
    appended to the processing log, and the operation counter goes up by
    exactly 1. The same append and the same increment happen for every
    other task on which [process] returns; on a task of a known type it can
    raise instead, and then it returns no result to log or count. *)
Theorem process_unknown_task_type self task w :
  let task_type := default_of (dict_get "type" task) (PStr "unknown") in
  (task_type ≠ PStr "quantum_optimize" →
   task_type ≠ PStr "ml_inference" →
   task_type ≠ PStr "hybrid_compute" →
   task_type ≠ PStr "health_check" →
   ∃ result self' w',
     process clock gauss round2 str_of self task w = Ret (result, self') w' ∧
     dict_get "status" result = Some (PStr "error") ∧
     dict_get "error" result =
       Some (PStr ("Unknown task type: " +:+ format str_of task_type)) ∧
     processing_log self' = processing_log self ++ [result] ∧
     total_operations self' = total_operations self + 1) ∧
  (∀ result self' w',
     process clock gauss round2 str_of self task w = Ret (result, self') w' →
     processing_log self' = processing_log self ++ [result] ∧
     total_operations self' = total_operations self + 1).
Proof.
  intros task_type. split; [|intros result self' w'; apply process_records].
  intros H1 H2 H3 H4.
  assert (∃ result self' w',
            process clock gauss round2 str_of self task w
              = Ret (result, self') w' ∧
            dict_get "status" result = Some (PStr "error") ∧
            dict_get "error" result =
              Some (PStr ("Unknown task type: " +:+ format str_of task_type)))
    as (result & self' & w' & Hrun & Hst & Herr).
  { unfold process. fold task_type.
    unfold mbind, M_bind, mret, M_ret, time_time. cbn [heap ticks draws].
    rewrite !py_eq_str_ne by done. by do 3 eexists. }
  exists result, self', w'. split_and!; try done; by eapply process_records.
Qed.

End CoreFacts.

(* ===================================================================== *)
(** ** Reachable states of the engine *)
(* ===================================================================== *)

Section ReachFacts.
Variable clock : nat -> float.
Variable round2 : float -> float.
Import IntegrationEngine.

Lemma registry_ok_refs w reg : registry_ok w reg → refs_ok w reg.
Proof.
  intros [_ Hrec] l Hl. destruct (Hrec l Hl) as (d & Hd & _). by eexists.
Qed.

Lemma delivered_or_error_heap w w' m :
  heap w' !! m = heap w !! m → delivered_or_error w m → delivered_or_error w' m.
Proof. unfold delivered_or_error, field. by intros ->. Qed.

Lemma delivered_or_error_lt w m :
  delivered_or_error w m → (m < length (heap w))%nat.
Proof.
  unfold delivered_or_error, field. intros H. apply lookup_lt_is_Some.
  destruct (heap w !! m); [by eexists|]. by destruct H.
Qed.

(** A step that keeps the engine, keeps the registry well formed and keeps
    every object that is not a service record keeps the invariant. *)
Lemma engine_inv_frame w w' e :
  engine_inv w e →
  registry_ok w' (registered_services e) →
  (∀ l, l ∉ dict_values (registered_services e) →
     heap w' !! l = heap w !! l) →
  engine_inv w' e.
Proof.
  intros (Hok & Hlogs & Hmsgs) Hok' Hout. split_and!; [done|done|].
  intros m Hm. destruct (Hmsgs m Hm) as [Hres Hnot]. split; [|done].
  eapply delivered_or_error_heap; [|done]. by apply Hout.
Qed.

Lemma engine_inv_init w0 w e : __init__ clock w0 = Ret e w → engine_inv w e.
Proof.
  intros [= <- <-]. split_and!.
  - split; [split; apply NoDup_nil_2|]. intros r Hr. by apply elem_of_nil in Hr.
  - done.
  - intros m Hm. by apply elem_of_nil in Hm.
Qed.

Lemma engine_inv_register w e name ty endpoint config w' e' :
  engine_inv w e →
  register_service clock e name ty endpoint config w = Ret e' w' →
  engine_inv w' e'.
Proof.
  intros (Hok & Hlogs & Hmsgs). rewrite register_service_eq.
  intros [= <- <-]. pose proof Hok as [[Hkeys Hvals] Hrec].
  split_and!; simpl.
  - split; [split|].
    + by apply dict_ok_set.
    + apply dict_values_set_NoDup; [done|]. intros Hin.
      pose proof (registry_ok_lt _ _ _ Hok Hin). lia.
    + intros r Hr. apply dict_values_set_elem in Hr as [->|Hr].
      * eexists. split; [apply lookup_at_end|].
        split_and!; [by eexists|by eexists|by exists 0].
      * destruct (Hrec r Hr) as (d & Hd & Hsr). exists d.
        split; [by apply lookup_extend|done].
  - done.
  - intros m Hm. destruct (Hmsgs m Hm) as [Hres Hnot].
    pose proof (delivered_or_error_lt _ _ Hres) as Hlt. split.
    + eapply delivered_or_error_heap; [|done]. simpl. by apply lookup_app_l.
    + intros Hin. apply dict_values_set_elem in Hin as [->|Hin]; [lia|done].
Qed.

Lemma engine_inv_send w e source target payload m w' e' :
  engine_inv w e →
  send_message clock e source target payload w = Ret (m, e') w' →
  engine_inv w' e' ∧ e' = log_message e m ∧ delivered_or_error w' m.
Proof.
  intros (Hok & Hlogs & Hmsgs).
  assert (∀ w1, (∀ l, (l < length (heap w))%nat →
                   l ∉ dict_values (registered_services e) →
                   heap w1 !! l = heap w !! l) →
          ∀ m', m' ∈ message_queue e →
            delivered_or_error w1 m' ∧
            m' ∉ dict_values (registered_services e)) as Hold.
  { intros w1 Hfr m' Hm'. destruct (Hmsgs m' Hm') as [Hres Hnot].
    split; [|done]. eapply delivered_or_error_heap; [|done].
    apply Hfr; [|done]. by apply delivered_or_error_lt. }
  assert (length (heap w) ∉ dict_values (registered_services e)) as Hnew.
  { intros Hin. pose proof (registry_ok_lt _ _ _ Hok Hin). lia. }
  destruct (dict_get target (registered_services e)) as [r|] eqn:Hget.
  - destruct (send_message_delivers clock e source target payload w r Hok Hget)
      as (d & n & w1 & Hd & Hn & Hsend & Hm & Hr & Hlen & Hframe & Hok1).
    rewrite Hsend. intros [= <- <- <-].
    assert (delivered_or_error w1 (length (heap w))) as Hres.
    { left. unfold field. by rewrite Hm. }
    split; [|done]. split_and!; [done|simpl; by rewrite Hlogs|]. simpl.
    intros m' Hm'. apply elem_of_app in Hm' as [Hm'|Hm'].
    + apply Hold; [|done]. intros l Hl Hnot. apply Hframe; [done|].
      intros ->. apply Hnot. by eapply dict_get_values.
    + by apply list_elem_of_singleton in Hm' as ->.
  - rewrite send_message_unregistered by done. intros [= <- <- <-].
    set (w1 := World _ _ _).
    assert (delivered_or_error w1 (length (heap w))) as Hres.
    { right. unfold field. simpl. by rewrite lookup_at_end. }
    assert (∀ l, (l < length (heap w))%nat → heap w1 !! l = heap w !! l)
      as Hfr by (intros l Hl; by apply lookup_app_l).
    split; [|done]. split_and!; [|simpl; by rewrite Hlogs|]; simpl.
    + split; [by destruct Hok|]. intros r Hr. destruct Hok as [_ Hrec].
      destruct (Hrec r Hr) as (d & Hd & Hsr). exists d. split; [|done].
      by apply lookup_extend.
    + intros m' Hm'. apply elem_of_app in Hm' as [Hm'|Hm'].
      * apply Hold; [|done]. intros l Hl _. by apply Hfr.
      * by apply list_elem_of_singleton in Hm' as ->.
Qed.

Lemma engine_inv_broadcast w e source payload ms w' e' :
  engine_inv w e →
  broadcast clock e source payload w = Ret (ms, e') w' →
  engine_inv w' e' ∧
  message_queue e' = message_queue e ++ ms ∧
  processed_messages e' = processed_messages e ++ ms.
Proof.
  intros (Hok & Hlogs & Hmsgs) Hrun. pose proof Hok as [[Hkeys _] _].
  destruct (broadcast_loop_spec clock source payload
              (dict_keys (registered_services e)) e [] w Hok Hkeys)
    as (ms0 & e0 & w0 & Hrun0 & Hreg & Hq & Hp & Hok' & Hms & _ & _ & Hfr & _).
  { intros name Hin. by apply dict_mem_true, dict_mem_keys. }
  unfold broadcast in Hrun. rewrite Hrun0 in Hrun.
  injection Hrun as <- <- <-. split; [|done]. split_and!.
  - by rewrite Hreg.
  - by rewrite Hq, Hp, Hlogs.
  - intros m. rewrite Hq, Hreg, elem_of_app. intros [Hm|Hm].
    + destruct (Hmsgs m Hm) as [Hres Hnot]. split; [|done].
      eapply delivered_or_error_heap; [|done].
      apply Hfr; [|done]. by apply delivered_or_error_lt.
    + apply list_elem_of_lookup in Hm as [i Hi].
      destruct (Forall2_lookup_l _ _ _ _ _ Hms Hi)
        as (name & _ & Hge & _ & now & Hm).
      split.
      * left. unfold field. by rewrite Hm.
      * intros Hin. pose proof (registry_ok_lt _ _ _ Hok Hin). lia.
Qed.

Lemma count_pending_zero w queue :
  (∀ m, m ∈ queue → delivered_or_error w m) →
  count_pending queue w = Ret 0%nat w.
Proof.
  induction queue as [|m rest IH]; intros Hall; [done|]. simpl.
  unfold mbind, M_bind, getitem, mbind, M_bind, deref.
  assert (delivered_or_error w m) as Hm by apply Hall, list_elem_of_here.
  unfold delivered_or_error, field in Hm.
  destruct (heap w !! m) as [d|]; [|by destruct Hm].
  assert (∃ st, dict_get "status" d = Some st ∧ py_eq_str st "pending" = false)
    as (st & -> & Hst) by (destruct Hm as [->| ->]; by eexists).
  simpl. rewrite IH; [by rewrite Hst|].
  intros m' Hm'. by apply Hall, list_elem_of_further.
Qed.

Lemma summarise_total w reg :
  (∀ r, r ∈ dict_values reg → ∃ d, heap w !! r = Some d ∧ service_record d) →
  ∃ out, summarise reg w = Ret out w.
Proof.
  induction reg as [|[name r] rest IH]; intros Hrec; [by eexists|].
  destruct (Hrec r) as (d & Hd & [ty Hty] & [st Hst] & n & Hn);
    [apply list_elem_of_here|].
  destruct IH as [out Hout].
  { intros r' Hr'. by apply Hrec, list_elem_of_further. }
  eexists. simpl. unfold mbind, M_bind, getitem, mbind, M_bind, deref.
  rewrite Hd, Hty. simpl. rewrite Hd, Hst. simpl. rewrite Hd, Hn. simpl.
  by rewrite Hout.
Qed.

Lemma registry_ok_heap w w' reg :
  (∀ l, l ∈ dict_values reg → heap w' !! l = heap w !! l) →
  registry_ok w reg → registry_ok w' reg.
Proof.
  intros Heq [Hone Hrec]. split; [done|]. intros r Hr.
  rewrite Heq by done. by apply Hrec.
Qed.

(** In a state that satisfies the invariant the report is produced, the
    store stays as it is, and no message counts as pending. *)
Lemma report_no_pending w e :
  engine_inv w e →
  ∃ rep w',
    get_integration_report clock round2 e w = Ret rep w' ∧
    heap w' = heap w ∧
    dict_get "pending_messages" rep = Some (PInt 0).
Proof.
  intros (Hok & Hlogs & Hmsgs).
  set (w1 := World (heap w) (S (ticks w)) (draws w)).
  assert (count_pending (message_queue e) w1 = Ret 0%nat w1) as Hcount.
  { apply count_pending_zero. intros m Hm.
    eapply (delivered_or_error_heap w); [done|]. by apply Hmsgs. }
  destruct (summarise_total w1 (registered_services e)) as [out Hout].
  { by destruct Hok. }
  do 2 eexists. unfold get_integration_report, mbind, M_bind, time_time.
  fold w1. rewrite Hcount, Hout. by split_and!.
Qed.

Lemma engine_inv_check_health w e h rep h' w' :
  engine_inv w e →
  SelfHealing.check_health clock h (registered_services e) w
    = Ret (rep, h') w' →
  engine_inv w' e.
Proof.
  intros Hinv. pose proof Hinv as (Hok & _).
  rewrite check_health_eq by by apply registry_ok_refs.
  intros [= _ _ <-]. eapply engine_inv_frame; [done| |done].
  by eapply registry_ok_heap.
Qed.

Lemma engine_inv_auto_repair w e h rs h' w' :
  engine_inv w e →
  SelfHealing.auto_repair clock h (registered_services e) w
    = Ret (rs, h') w' →
  engine_inv w' e.
Proof.
  intros Hinv. pose proof Hinv as (Hok & _).
  destruct (auto_repair_spec clock h (registered_services e) w)
    as (rs0 & w0 & Hrun & _ & _ & Hkeep & Hfix & Hout & _);
    [by apply registry_ok_refs|].
  rewrite Hrun. intros [= _ _ <-]. eapply engine_inv_frame; [done| |done].
  destruct Hok as [Hone Hrec]. split; [done|]. intros r Hr.
  destruct (Hrec r Hr) as (d & Hd & Hsr).
  destruct (is_active w r) eqn:Hact.
  - exists d. by rewrite Hkeep.
  - eexists. split; [by apply Hfix|]. by apply service_record_status.
Qed.

Lemma engine_inv_mark w e name r status w' :
  engine_inv w e →
  get_service_status e name = Some r →
  setitem r "status" status w = Ret tt w' →
  engine_inv w' e.
Proof.
  intros Hinv Hget. pose proof Hinv as (Hok & _).
  pose proof (dict_get_values _ _ _ Hget) as Hr.
  destruct Hok as [Hone Hrec]. destruct (Hrec r Hr) as (d & Hd & Hsr).
  unfold setitem. rewrite Hd. intros [= <-].
  pose proof (lookup_lt_Some _ _ _ Hd) as Hlt.
  eapply engine_inv_frame; [done| |].
  - split; [done|]. intros r' Hr'. simpl.
    destruct (decide (r' = r)) as [->|Hne].
    + eexists. split; [by apply list_lookup_insert_eq|].
      by apply service_record_status.
    + rewrite list_lookup_insert_ne by done. by apply Hrec.
  - intros l Hl. simpl. apply list_lookup_insert_ne. by intros ->.
Qed.

(** The invariant holds in every reachable state. *)
Lemma reachable_inv w e : reachable clock round2 w e → engine_inv w e.
Proof.
  induction 1 as [w0 w e Hrun
                 |w e name ty endpoint config w' e' _ IH Hrun
                 |w e source target payload m w' e' _ IH Hrun
                 |w e source payload ms w' e' _ IH Hrun
                 |w e rep w' _ IH Hrun
                 |w e h rep h' w' _ IH Hrun
                 |w e h rs h' w' _ IH Hrun
                 |w e name r status w' _ IH Hget Hrun].
  - by eapply engine_inv_init.
  - by eapply engine_inv_register.
  - by eapply engine_inv_send.
  - by eapply engine_inv_broadcast.
  - destruct (report_no_pending w e IH) as (rep0 & w0 & Hrun0 & Hheap & _).
    assert (w0 = w') as -> by congruence.
    eapply engine_inv_frame; [done| |by rewrite Hheap].
    eapply registry_ok_heap; [|by destruct IH]. by rewrite Hheap.
  - by eapply engine_inv_check_health.
  - by eapply engine_inv_auto_repair.
  - by eapply engine_inv_mark.
Qed.

(** Every registry of a reachable engine has one record per name, each a
    live service record. *)
Lemma reachable_registry_ok w e :
  reachable clock round2 w e → registry_ok w (registered_services e).
Proof. intros H. by destruct (reachable_inv w e H). Qed.

(** Whatever the state, a call of [send_message] that returns has
    resolved its message. *)
Lemma send_message_resolves w e source target payload m e' w' :
  send_message clock e source target payload w = Ret (m, e') w' →
  delivered_or_error w' m.
Proof.
  destruct (dict_get target (registered_services e)) as [r|] eqn:Hget.
  - unfold send_message, dict_mem, lookup_service. rewrite Hget.
    unfold mbind, M_bind, mret, M_ret, time_time, new_dict, setitem, getitem,
      deref, mbind, M_bind. simpl.
    rewrite lookup_at_end, insert_at_end. simpl.
    match goal with
    | |- context [?h !! r] => destruct (h !! r) as [d|] eqn:Hr; [|done]
    end.
    destruct (dict_get "message_count" d) as [c|] eqn:Hc; [|done]. simpl.
    match goal with
    | |- context [py_add1 c ?w1] =>
        assert (py_add1 c w1 = Raise TypeError ∨
                ∃ c', py_add1 c w1 = Ret c' w1) as [->| [c' ->]]
          by (destruct c; simpl; eauto); [done|]
    end.
    simpl. rewrite Hr. intros [= <- <- <-]. left. unfold field. simpl.
    assert (r ≠ length (heap w)) as Hne.
    { intros ->. rewrite lookup_at_end in Hr. by injection Hr as <-. }
    by rewrite list_lookup_insert_ne, lookup_at_end.
  - rewrite send_message_unregistered by done. intros [= <- <- <-].
    right. unfold field. simpl. by rewrite lookup_at_end.
Qed.

Lemma send_message_total w e source target payload :
  registry_ok w (registered_services e) →
  ∃ m e' w', send_message clock e source target payload w = Ret (m, e') w'.
Proof.
  intros Hok.
  destruct (dict_get target (registered_services e)) as [r|] eqn:Hget.
  - destruct (send_message_delivers clock e source target payload w r Hok Hget)
      as (d & n & w' & _ & _ & Hsend & _). eauto.
  - rewrite send_message_unregistered by done. eauto.
Qed.

Lemma broadcast_total w e source payload :
  registry_ok w (registered_services e) →
  ∃ ms e' w', broadcast clock e source payload w = Ret (ms, e') w'.
Proof.
  intros Hok. pose proof Hok as [[Hkeys _] _].
  destruct (broadcast_loop_spec clock source payload
              (dict_keys (registered_services e)) e [] w Hok Hkeys)
    as (ms & e' & w' & Hrun & _).
  { intros name Hin. by apply dict_mem_true, dict_mem_keys. }
  by exists ms, e', w'.
Qed.

(** C6. In every reachable state each message in the queue and in the
    processed log has status 'delivered' or 'error'; a call of
    [send_message] returns a message with one of these two statuses and
    leaves the logs in that condition; and the report gives 0 as the number
    of pending messages. *)
Theorem no_message_stays_pending w e :
  reachable clock round2 w e →
  (∀ m, m ∈ message_queue e ∨ m ∈ processed_messages e →
     delivered_or_error w m) ∧
  (∀ source target payload, ∃ m e' w',
     send_message clock e source target payload w = Ret (m, e') w' ∧
     delivered_or_error w' m ∧
     ∀ m', m' ∈ message_queue e' ∨ m' ∈ processed_messages e' →
       delivered_or_error w' m') ∧
  ∃ rep w',
    get_integration_report clock round2 e w = Ret rep w' ∧
    dict_get "pending_messages" rep = Some (PInt 0).
Proof.
  intros Hreach. pose proof (reachable_inv w e Hreach) as Hinv.
  assert (∀ w1 e1, engine_inv w1 e1 →
            ∀ m, m ∈ message_queue e1 ∨ m ∈ processed_messages e1 →
              delivered_or_error w1 m) as Hlogs.
  { intros w1 e1 (_ & Heq & Hmsgs) m Hm. rewrite <- Heq in Hm.
    apply Hmsgs. tauto. }
  split_and!.
  - by apply Hlogs.
  - intros source target payload.
    destruct (send_message_total w e source target payload)
      as (m & e' & w' & Hsend); [by destruct Hinv|].
    destruct (engine_inv_send w e source target payload m w' e' Hinv Hsend)
      as (Hinv' & _ & Hres).
    exists m, e', w'. split_and!; [done|done|by apply Hlogs].
  - destruct (report_no_pending w e Hinv) as (rep & w' & Hrun & _ & Hzero).
    by exists rep, w'.
Qed.

(** C10. In every reachable state the message queue and the processed log
    are the same sequence of message objects. [send_message] appends the
    message it returns to both, [broadcast] appends the messages it returns
    to both, and [register_service] leaves both as they are. *)
Theorem message_logs_agree w e :
  reachable clock round2 w e →
  message_queue e = processed_messages e ∧
  (∀ source target payload, ∃ m e' w',
     send_message clock e source target payload w = Ret (m, e') w' ∧
     message_queue e' = message_queue e ++ [m] ∧
     processed_messages e' = processed_messages e ++ [m]) ∧
  (∀ source payload, ∃ ms e' w',
     broadcast clock e source payload w = Ret (ms, e') w' ∧
     message_queue e' = message_queue e ++ ms ∧
     processed_messages e' = processed_messages e ++ ms) ∧
  (∀ name ty endpoint config, ∃ e' w',
     register_service clock e name ty endpoint config w = Ret e' w' ∧
     message_queue e' = message_queue e ∧
     processed_messages e' = processed_messages e).
Proof.
  intros Hreach. pose proof (reachable_inv w e Hreach) as Hinv.
  pose proof Hinv as (Hok & Heq & _). split_and!.
  - done.
  - intros source target payload.
    destruct (send_message_total w e source target payload Hok)
      as (m & e' & w' & Hsend).
    destruct (engine_inv_send w e source target payload m w' e' Hinv Hsend)
      as (_ & -> & _).
    by exists m, (log_message e m), w'.
  - intros source payload.
    destruct (broadcast_total w e source payload Hok)
      as (ms & e' & w' & Hrun).
    destruct (engine_inv_broadcast w e source payload ms w' e' Hinv Hrun)
      as (_ & Hq & Hp).
    by exists ms, e', w'.
  - intros name ty endpoint config. rewrite register_service_eq.
    by do 2 eexists.
Qed.

End ReachFacts.

(* ===================================================================== *)
(** ** The theorems at the sample run *)
(* ===================================================================== *)

Lemma sample_reachable :
  reachable sample_clock sample_round2 sample_world sample_engine.
Proof.
  set (a := sample_record "db" "active" 1%float 0).
  set (m1 := [("source", PStr "A"); ("target", PStr "B"); ("payload", PDict []);
              ("timestamp", PFloat 3%float); ("status", PStr "delivered")]).
  set (m2 := [("source", PStr "A"); ("target", PStr "Z"); ("payload", PDict []);
              ("timestamp", PFloat 4%float); ("status", PStr "error");
              ("error", PStr "Service Z not registered")]).
  set (reg := [("A", 0%nat); ("B", 1%nat)]).
  apply (reach_mark _ _
           (World [a; sample_record "api" "active" 2%float 1; m1; m2] 5 0)
           sample_engine "B" 1%nat (PStr "inactive"));
    [|vm_compute; reflexivity..].
  apply (reach_send _ _
           (World [a; sample_record "api" "active" 2%float 1; m1] 4 0)
           (IntegrationEngine.Engine reg [2%nat] [2%nat] [] 0%float)
           "A" "Z" [] 3%nat);
    [|vm_compute; reflexivity].
  apply (reach_send _ _
           (World [a; sample_record "api" "active" 2%float 0] 3 0)
           (IntegrationEngine.Engine reg [] [] [] 0%float)
           "A" "B" [] 2%nat);
    [|vm_compute; reflexivity].
  apply (reach_register _ _ (World [a] 2 0)
           (IntegrationEngine.Engine [("A", 0%nat)] [] [] [] 0%float)
           "B" "api" "" None);
    [|vm_compute; reflexivity].
  apply (reach_register _ _ (World [] 1 0)
           (IntegrationEngine.Engine [] [] [] [] 0%float)
           "A" "db" "" None);
    [|vm_compute; reflexivity].
  apply (reach_init _ _ (World [] 0 0)). vm_compute. reflexivity.
Qed.

Lemma sample_registry_ok :
  registry_ok sample_world (IntegrationEngine.registered_services sample_engine).
Proof. eapply reachable_registry_ok, sample_reachable. Qed.

Lemma sample_refs_ok :
  refs_ok sample_world (IntegrationEngine.registered_services sample_engine).
Proof. apply registry_ok_refs, sample_registry_ok. Qed.

Lemma send_message_outcome_witness :
  registry_ok sample_world (IntegrationEngine.registered_services sample_engine) ∧
  ∃ m self' w',
    IntegrationEngine.send_message sample_clock sample_engine "A" "B" []
      sample_world = Ret (m, self') w' ∧
    field w' m "status" = Some (PStr "delivered") ∧
    record_of w' self' "A" = record_of sample_world sample_engine "A".
Proof.
  split; [exact sample_registry_ok|].
  destruct (send_message_outcome sample_clock sample_engine "A" "B" []
              sample_world sample_registry_ok)
    as (m & self' & w' & Hrun & _ & Hreg & _).
  destruct Hreg as (Hst & _ & Hothers); [by exists 1%nat|].
  exists m, self', w'. split_and!; [done|done|by apply Hothers].
Defined.

Lemma auto_repair_reactivates_witness :
  one_record_per_name (IntegrationEngine.registered_services sample_engine) ∧
  refs_ok sample_world (IntegrationEngine.registered_services sample_engine) ∧
  ∃ rs self' w',
    SelfHealing.auto_repair sample_clock sample_monitor
      (IntegrationEngine.registered_services sample_engine) sample_world
      = Ret (rs, self') w' ∧
    rs = [[("service", PStr "B"); ("action", PStr "reactivated");
           ("timestamp", PFloat 5%float)]].
Proof.
  pose proof sample_registry_ok as [Hone _].
  split; [exact Hone|]. split; [exact sample_refs_ok|].
  destruct (auto_repair_reactivates sample_clock sample_monitor
              (IntegrationEngine.registered_services sample_engine)
              sample_world Hone sample_refs_ok)
    as (rs & self' & w' & Hrun & _ & _ & Hrs & _).
  by exists rs, self', w'.
Defined.

Lemma check_health_report_witness :
  refs_ok sample_world (IntegrationEngine.registered_services sample_engine) ∧
  ∃ rep self' w',
    SelfHealing.check_health sample_clock sample_monitor
      (IntegrationEngine.registered_services sample_engine) sample_world
      = Ret (rep, self') w' ∧
    dict_get "status" rep = Some (PStr "degraded") ∧
    SelfHealing.fault_log self' =
      [[("service", PStr "B"); ("issue", PStr "inactive");
        ("severity", PStr "warning")]].
Proof.
  split; [exact sample_refs_ok|].
  destruct (check_health_report sample_clock sample_monitor
              (IntegrationEngine.registered_services sample_engine)
              sample_world sample_refs_ok)
    as (rep & self' & w' & Hrun & _ & Hdegraded).
  destruct Hdegraded as (Hst & _ & _ & Hlog).
  { exists 1%nat. split; [|done]. apply list_elem_of_further, list_elem_of_here. }
  by exists rep, self', w'.
Defined.

Lemma register_service_again_witness :
  registered sample_engine "B" ∧
  ∃ self' w',
    IntegrationEngine.register_service sample_clock sample_engine
      "B" "queue" "tcp://b" None sample_world = Ret self' w' ∧
    dict_len (IntegrationEngine.registered_services self') = 2%nat.
Proof.
  assert (registered sample_engine "B") as Hreg by by exists 1%nat.
  split; [exact Hreg|].
  destruct (register_service_again sample_clock sample_engine
              "B" "queue" "tcp://b" None sample_world Hreg)
    as (self' & w' & Hrun & Hlen & _).
  by exists self', w'.
Defined.

Lemma broadcast_delivers_witness :
  registry_ok sample_world (IntegrationEngine.registered_services sample_engine) ∧
  registered sample_engine "A" ∧
  ∃ ms self' w',
    IntegrationEngine.broadcast sample_clock sample_engine "A" [] sample_world
      = Ret (ms, self') w' ∧
    length ms = 1%nat.
Proof.
  assert (registered sample_engine "A") as Hreg by by exists 0%nat.
  split; [exact sample_registry_ok|]. split; [exact Hreg|].
  destruct (broadcast_delivers sample_clock sample_engine "A" []
              sample_world sample_registry_ok Hreg)
    as (ms & self' & w' & Hrun & _ & Hlen & _).
  by exists ms, self', w'.
Defined.

Lemma no_message_stays_pending_witness :
  reachable sample_clock sample_round2 sample_world sample_engine ∧
  ∃ rep w',
    IntegrationEngine.get_integration_report sample_clock sample_round2
      sample_engine sample_world = Ret rep w' ∧
    dict_get "pending_messages" rep = Some (PInt 0).
Proof.
  split; [exact sample_reachable|].
  by destruct (no_message_stays_pending sample_clock sample_round2
                 sample_world sample_engine sample_reachable)
    as (_ & _ & Hrep).
Defined.

Lemma check_health_frame_witness :
  refs_ok sample_world (IntegrationEngine.registered_services sample_engine) ∧
  ∃ rep self' w',
    SelfHealing.check_health sample_clock sample_monitor
      (IntegrationEngine.registered_services sample_engine) sample_world
      = Ret (rep, self') w' ∧
    heap w' = heap sample_world.
Proof.
  split; [exact sample_refs_ok|].
  destruct (check_health_frame sample_clock sample_monitor
              (IntegrationEngine.registered_services sample_engine)
              sample_world sample_refs_ok)
    as (rep & self' & w' & Hrun & Hheap & _).
  by exists rep, self', w'.
Defined.

Lemma process_unknown_task_type_witness :
  let task := [("type", PStr "train_model")] in
  let task_type := default_of (dict_get "type" task) (PStr "unknown") in
  task_type ≠ PStr "quantum_optimize" ∧
  task_type ≠ PStr "ml_inference" ∧
  task_type ≠ PStr "hybrid_compute" ∧
  task_type ≠ PStr "health_check" ∧
  ∃ result self' w',
    QuantumAICore.process sample_clock sample_gauss sample_round2
      sample_str_of sample_core task sample_world = Ret (result, self') w' ∧
    dict_get "status" result = Some (PStr "error") ∧
    dict_get "error" result = Some (PStr "Unknown task type: train_model") ∧
    QuantumAICore.total_operations self' = 1.
Proof.
  intros task task_type.
  assert (task_type ≠ PStr "quantum_optimize") as H1 by done.
  assert (task_type ≠ PStr "ml_inference") as H2 by done.
  assert (task_type ≠ PStr "hybrid_compute") as H3 by done.
  assert (task_type ≠ PStr "health_check") as H4 by done.
  split_and!; [done..|].
  destruct (process_unknown_task_type sample_clock sample_gauss sample_round2
              sample_str_of sample_core task sample_world) as [Hunknown _].
  destruct (Hunknown H1 H2 H3 H4)
    as (result & self' & w' & Hrun & Hst & Herr & _ & Hops).
  by exists result, self', w'.
Defined.

(** Not every task is logged and counted: a task of a known type whose
    parameters have no [get] makes [process] raise before it reaches the
    log and the counter. *)
Lemma process_raises_before_logging :
  let task := [("type", PStr "ml_inference"); ("parameters", PNone)] in
  QuantumAICore.process sample_clock sample_gauss sample_round2
    sample_str_of sample_core task sample_world = Raise AttributeError ∧
  ¬ ∃ result self' w',
      QuantumAICore.process sample_clock sample_gauss sample_round2
        sample_str_of sample_core task sample_world = Ret (result, self') w' ∧
      QuantumAICore.processing_log self'
        = QuantumAICore.processing_log sample_core ++ [result] ∧
      QuantumAICore.total_operations self'
        = QuantumAICore.total_operations sample_core + 1.
Proof.
  intros task.
  assert (QuantumAICore.process sample_clock sample_gauss sample_round2
            sample_str_of sample_core task sample_world
          = Raise AttributeError) as Hraise by (vm_compute; reflexivity).
  split; [exact Hraise|].
  intros (result & self' & w' & Hrun & _). rewrite Hraise in Hrun.
  discriminate Hrun.
Qed.

Lemma auto_repair_healthy_witness :
  refs_ok sample_world (IntegrationEngine.registered_services sample_engine) ∧
  ∃ rs self' w',
    SelfHealing.auto_repair sample_clock sample_monitor
      (IntegrationEngine.registered_services sample_engine) sample_world
      = Ret (rs, self') w' ∧
    SelfHealing.health_status self' = "healthy".
Proof.
  split; [exact sample_refs_ok|].
  destruct (auto_repair_healthy sample_clock sample_monitor
              (IntegrationEngine.registered_services sample_engine)
              sample_world sample_refs_ok)
    as (rs & self' & w' & Hrun & Hst & _).
  by exists rs, self', w'.
Defined.

Lemma message_logs_agree_witness :
  reachable sample_clock sample_round2 sample_world sample_engine ∧
  IntegrationEngine.message_queue sample_engine
    = IntegrationEngine.processed_messages sample_engine.
Proof.
  split; [exact sample_reachable|].
  by destruct (message_logs_agree sample_clock sample_round2
                 sample_world sample_engine sample_reachable)
    as (Heq & _).
Defined.

(* ===================================================================== *)
(** ** More about the engine: registration, message contents, broadcast *)
(* ===================================================================== *)

Section EngineMore.
Variable clock : nat -> float.
Variable round2 : float -> float.
Import IntegrationEngine.

Lemma not_registered_get self name :
  ¬ registered self name → dict_get name (registered_services self) = None.
Proof.
  intros Hnot. destruct (dict_get name (registered_services self)) eqn:E;
    [|done]. exfalso. apply Hnot. by eexists.
Qed.

(** X1. Registering a name that is not registered yet returns normally,
    puts the name last in the registry's iteration order, makes the registry
    one entry larger, and binds the name to a record with the given type,
    endpoint and config, status 'active' and a message count of 0. *)
Theorem register_service_new self name ty endpoint config w :
  ¬ registered self name →
  ∃ self' w',
    register_service clock self name ty endpoint config w = Ret self' w' ∧
    dict_keys (registered_services self')
      = dict_keys (registered_services self) ++ [name] ∧
    dict_len (registered_services self')
      = S (dict_len (registered_services self)) ∧
    ∃ d, record_of w' self' name = Some d ∧
         dict_get "type" d = Some (PStr ty) ∧
         dict_get "endpoint" d = Some (PStr endpoint) ∧
         dict_get "config" d = Some (PDict (default_of config [])) ∧
         dict_get "status" d = Some (PStr "active") ∧
         dict_get "message_count" d = Some (PInt 0).
Proof.
  intros Hnot. apply not_registered_get in Hnot.
  rewrite register_service_eq. do 2 eexists. split; [done|]. simpl.
  pose proof (dict_keys_set_absent name (length (heap w)) _ Hnot) as Hkeys.
  split; [done|]. split.
  - unfold dict_len. unfold dict_keys in Hkeys.
    rewrite <- (length_map fst), Hkeys, length_app, length_map. simpl. lia.
  - unfold record_of. simpl. rewrite dict_get_set_eq, lookup_at_end.
    eexists. split; [done|]. by rewrite config_or_empty_default.
Qed.

(** X2. Registering a service creates a new record object and binds the
    name to it: [get_service_status] of that name returns the new object,
    [get_service_status] of every other name returns what it returned
    before, every object that existed before (the other records, a previous
    record of the same name, all messages) is left as it was, and both
    message logs are left as they were. *)
Theorem register_service_lookup self name ty endpoint config w :
  ∃ self' w' r,
    register_service clock self name ty endpoint config w = Ret self' w' ∧
    get_service_status self' name = Some r ∧
    heap w !! r = None ∧
    is_Some (heap w' !! r) ∧
    (∀ other, other ≠ name →
       get_service_status self' other = get_service_status self other) ∧
    (∀ l d, heap w !! l = Some d → heap w' !! l = Some d) ∧
    message_queue self' = message_queue self ∧
    processed_messages self' = processed_messages self.
Proof.
  rewrite register_service_eq. do 2 eexists. exists (length (heap w)).
  split; [done|]. unfold get_service_status. simpl. split_and!.
  - apply dict_get_set_eq.
  - by apply lookup_ge_None.
  - rewrite lookup_at_end. by eexists.
  - intros other Hne. by apply dict_get_set_ne.
  - intros l d Hd. by apply lookup_extend.
  - done.
  - done.
Qed.

(** X3. The message that [send_message] returns is a new object that holds
    the source and the target as they were passed and the clock reading of
    the call as its timestamp; the source is not looked up, so it need not
    be registered. A delivered message has no 'error' key. (The payload is
    the caller's own object and is not described.) *)
Theorem send_message_content self source target payload w :
  registry_ok w (registered_services self) →
  ∃ m self' w',
    send_message clock self source target payload w = Ret (m, self') w' ∧
    heap w !! m = None ∧
    field w' m "source" = Some (PStr source) ∧
    field w' m "target" = Some (PStr target) ∧
    field w' m "timestamp" = Some (PFloat (clock (ticks w))) ∧
    (registered self target → field w' m "error" = None).
Proof.
  intros Hok.
  assert (heap w !! length (heap w) = None) as Hfresh by by apply lookup_ge_None.
  destruct (dict_get target (registered_services self)) as [r|] eqn:Hget.
  - destruct (send_message_delivers clock self source target payload w r
                Hok Hget)
      as (d & n & w' & _ & _ & Hsend & Hm & _).
    do 3 eexists. split; [done|]. unfold field. rewrite Hm.
    by split_and!.
  - do 3 eexists. split; [by apply send_message_unregistered|].
    unfold field. simpl. rewrite lookup_at_end. split_and!; try done.
    intros [? ?]. congruence.
Qed.

Lemma keys_registered self :
  ∀ name, name ∈ dict_keys (registered_services self) → registered self name.
Proof. intros name Hin. by apply dict_mem_true, dict_mem_keys. Qed.

(** X4. A broadcast from a source that is not registered goes to every
    registered service: with N services registered it returns N messages,
    one per service in iteration order, each 'delivered', and every
    service's message counter goes up by exactly 1. *)
Theorem broadcast_from_outside self source payload w :
  registry_ok w (registered_services self) →
  ¬ registered self source →
  ∃ ms self' w',
    broadcast clock self source payload w = Ret (ms, self') w' ∧
    registered_services self' = registered_services self ∧
    length ms = dict_len (registered_services self) ∧
    Forall2 (λ m name,
               field w' m "target" = Some (PStr name) ∧
               field w' m "status" = Some (PStr "delivered"))
            ms (dict_keys (registered_services self)) ∧
    ∀ name, registered self name →
      ∃ n, message_count_of w self name = Some (PInt n) ∧
           message_count_of w' self' name = Some (PInt (n + 1)).
Proof.
  intros Hok Hsrc. pose proof Hok as [[Hkeys _] _].
  destruct (broadcast_loop_spec clock source payload
              (dict_keys (registered_services self)) self [] w Hok Hkeys
              (keys_registered self))
    as (ms & self' & w' & Hrun & Hsame & _ & _ & _ & Hms & Hcnt & _).
  assert (others source (dict_keys (registered_services self))
          = dict_keys (registered_services self)) as Hall.
  { apply others_absent. intros Hin. by apply Hsrc, keys_registered. }
  rewrite Hall in Hms, Hcnt.
  exists ms, self', w'. split_and!; [done|done| | |].
  - rewrite (Forall2_length _ _ _ Hms). unfold dict_len, dict_keys.
    by rewrite length_map.
  - eapply Forall2_impl; [done|]. simpl.
    intros m name (_ & _ & now & Hm). unfold field. by rewrite Hm.
  - intros name Hreg.
    destruct (registered_count w self name Hok Hreg) as [n Hn].
    exists n. split; [done|]. apply Hcnt; [|done].
    by apply dict_mem_keys, dict_mem_true.
Qed.


Lemma broadcast_loop_nobody self source payload names results w :
  (∀ name, name ∈ names → name = source) →
  broadcast_loop clock self source payload names results w
    = Ret (results, self) w.
Proof.
  induction names as [|name rest IH]; intros Hall; [done|].
  cbn [broadcast_loop].
  rewrite (Hall name) by apply list_elem_of_here.
  rewrite String.eqb_refl. cbn [negb]. apply IH.
  intros name' Hin. by apply Hall, list_elem_of_further.
Qed.

(** X6. When no service other than the source is registered (in
    particular when the registry is empty), a broadcast returns the empty
    list and changes nothing: no object, no log, not even the clock is
    read. *)
Theorem broadcast_to_nobody self source payload w :
  (∀ name, registered self name → name = source) →
  broadcast clock self source payload w = Ret ([], self) w.
Proof.
  intros Hall. apply broadcast_loop_nobody.
  intros name Hin. by apply Hall, keys_registered.
Qed.

Lemma summarise_spec w reg :
  (∀ r, r ∈ dict_values reg → ∃ d, heap w !! r = Some d ∧ service_record d) →
  ∃ out,
    summarise reg w = Ret out w ∧
    dict_keys out = dict_keys reg ∧
    ∀ name r d, dict_get name reg = Some r → heap w !! r = Some d →
      is_Some (summary_of d) ∧ dict_get name out = summary_of d.
Proof.
  induction reg as [|[name0 r0] rest IH]; intros Hrec.
  { exists []. by split_and!. }
  destruct (Hrec r0) as (d0 & Hd0 & [ty Hty] & [st Hst] & n & Hn);
    [apply list_elem_of_here|].
  destruct IH as (out & Hout & Hkeys & Hsum).
  { intros r' Hr'. by apply Hrec, list_elem_of_further. }
  eexists. split_and!.
  - simpl. unfold mbind, M_bind, getitem, mbind, M_bind, deref.
    rewrite Hd0, Hty. simpl. rewrite Hd0, Hst. simpl. rewrite Hd0, Hn. simpl.
    by rewrite Hout.
  - simpl. by rewrite Hkeys.
  - intros name r d. simpl.
    destruct (String.eqb name name0); [|by apply Hsum].
    intros [= <-] Hd. assert (d = d0) as -> by congruence.
    unfold summary_of. rewrite Hty, Hst, Hn. split; [by eexists|done].
Qed.

(** X7. In every reachable state [get_integration_report] returns and
    changes no object. The report gives the version, the rounded time since
    construction, the number of registry entries as 'services_registered',
    the length of the processed log as 'messages_processed', and under
    'services' one summary per registered name, in iteration order, holding
    the type, the status and the message count of that service's record. *)
Theorem integration_report_contents w e :
  reachable clock round2 w e →
  ∃ rep w',
    get_integration_report clock round2 e w = Ret rep w' ∧
    heap w' = heap w ∧
    dict_get "version" rep = Some (PStr "2.0.0") ∧
    dict_get "uptime_seconds" rep =
      Some (PFloat (round2 (PrimFloat.sub (clock (ticks w)) (_start_time e)))) ∧
    dict_get "services_registered" rep =
      Some (PInt (Z.of_nat (dict_len (registered_services e)))) ∧
    dict_get "messages_processed" rep =
      Some (PInt (Z.of_nat (length (processed_messages e)))) ∧
    ∃ svcs,
      dict_get "services" rep = Some (PDict svcs) ∧
      dict_keys svcs = dict_keys (registered_services e) ∧
      ∀ name d, record_of w e name = Some d →
        is_Some (summary_of d) ∧ dict_get name svcs = summary_of d.
Proof.
  intros Hreach.
  destruct (reachable_inv clock round2 w e Hreach) as (Hok & Hlogs & Hmsgs).
  set (w1 := World (heap w) (S (ticks w)) (draws w)).
  assert (count_pending (message_queue e) w1 = Ret 0%nat w1) as Hcount.
  { apply count_pending_zero. intros m Hm.
    eapply (delivered_or_error_heap w); [done|]. by apply Hmsgs. }
  destruct (summarise_spec w1 (registered_services e))
    as (out & Hout & Hkeys & Hsum); [by destruct Hok|].
  do 2 eexists. unfold get_integration_report, mbind, M_bind, time_time.
  fold w1. rewrite Hcount, Hout.
  split; [done|]. split_and!; try done.
  exists out. split_and!; [done|done|].
  intros name d. unfold record_of.
  destruct (dict_get name (registered_services e)) as [r|] eqn:Hget; [|done].
  intros Hd. by eapply Hsum.
Qed.

Lemma send_message_frame w e source target payload m e' w' :
  registry_ok w (registered_services e) →
  send_message clock e source target payload w = Ret (m, e') w' →
  ∀ l, (l < length (heap w))%nat →
    l ∉ dict_values (registered_services e) →
    heap w' !! l = heap w !! l.
Proof.
  intros Hok Hsend l Hl Hnot.
  destruct (dict_get target (registered_services e)) as [r|] eqn:Hget.
  - destruct (send_message_delivers clock e source target payload w r Hok Hget)
      as (d & n & w1 & _ & _ & Hsend1 & _ & _ & _ & Hframe & _).
    assert (w1 = w') as -> by congruence.
    apply Hframe; [done|]. intros ->. apply Hnot. by eapply dict_get_values.
  - rewrite send_message_unregistered in Hsend by done.
    injection Hsend as <- <- <-. simpl. by apply lookup_app_l.
Qed.

Lemma broadcast_frame w e source payload ms e' w' :
  registry_ok w (registered_services e) →
  broadcast clock e source payload w = Ret (ms, e') w' →
  registered_services e' = registered_services e ∧
  ∀ l, (l < length (heap w))%nat →
    l ∉ dict_values (registered_services e) →
    heap w' !! l = heap w !! l.
Proof.
  intros Hok Hrun. pose proof Hok as [[Hkeys _] _].
  destruct (broadcast_loop_spec clock source payload
              (dict_keys (registered_services e)) e [] w Hok Hkeys
              (keys_registered e))
    as (ms0 & e0 & w0 & Hrun0 & Hreg & _ & _ & _ & _ & _ & _ & Hfr & _).
  unfold broadcast in Hrun. rewrite Hrun0 in Hrun.
  by injection Hrun as <- <- <-.
Qed.

(** One call keeps the invariant, only appends to the processed log, only
    appends to the registry's names, and leaves the logged messages alone. *)
Lemma engine_step_keeps s s' :
  engine_inv s.1 s.2 →
  engine_step clock round2 s s' →
  engine_inv s'.1 s'.2 ∧
  processed_messages s.2 `prefix_of` processed_messages s'.2 ∧
  dict_keys (registered_services s.2)
    `prefix_of` dict_keys (registered_services s'.2) ∧
  ∀ m, m ∈ processed_messages s.2 → heap s'.1 !! m = heap s.1 !! m.
Proof.
  intros Hinv Hstep.
  destruct Hstep as [w e name ty endpoint config w' e' Hrun
                    |w e source target payload m w' e' Hrun
                    |w e source payload ms w' e' Hrun
                    |w e rep w' Hrun
                    |w e h rep h' w' Hrun
                    |w e h rs h' w' Hrun
                    |w e name r status w' Hget Hrun]; simpl in *.
  all: pose proof Hinv as (Hok & Hlogs & Hmsgs).
  all: assert (∀ m, m ∈ processed_messages e →
                 (m < length (heap w))%nat ∧
                 m ∉ dict_values (registered_services e)) as Hold
         by (intros x Hx; rewrite <- Hlogs in Hx;
             destruct (Hmsgs x Hx) as [Hres Hnot];
             split; [by apply delivered_or_error_lt|done]).
  - split; [by eapply engine_inv_register|].
    rewrite register_service_eq in Hrun. injection Hrun as <- <-. simpl.
    split_and!; [done| |].
    + destruct (dict_get name (registered_services e)) eqn:E.
      * by rewrite dict_keys_set_present by by eexists.
      * rewrite dict_keys_set_absent by done. by eexists.
    + intros m Hm. apply lookup_app_l. by apply Hold.
  - destruct (engine_inv_send clock w e source target payload m w' e'
                Hinv Hrun) as (Hinv' & -> & _).
    split; [done|]. simpl. split_and!; [by eexists|done|].
    intros m' Hm'. destruct (Hold m' Hm').
    by eapply send_message_frame.
  - destruct (engine_inv_broadcast clock w e source payload ms w' e'
                Hinv Hrun) as (Hinv' & _ & Hp).
    destruct (broadcast_frame w e source payload ms e' w' Hok Hrun)
      as [Hreg Hfr].
    split; [done|]. rewrite Hp, Hreg. split_and!; [by eexists|done|].
    intros m' Hm'. destruct (Hold m' Hm'). by apply Hfr.
  - destruct (report_no_pending clock round2 w e Hinv)
      as (rep0 & w0 & Hrun0 & Hheap & _).
    assert (w0 = w') as -> by congruence.
    split_and!; [|done|done|by rewrite Hheap].
    eapply engine_inv_frame; [done| |by rewrite Hheap].
    eapply registry_ok_heap; [|done]. by rewrite Hheap.
  - split; [by eapply engine_inv_check_health|].
    rewrite check_health_eq in Hrun by by apply registry_ok_refs.
    by injection Hrun as _ _ <-.
  - split; [by eapply engine_inv_auto_repair|].
    destruct (auto_repair_spec clock h (registered_services e) w)
      as (rs0 & w0 & Hrun0 & _ & _ & _ & _ & Hout & _);
      [by apply registry_ok_refs|].
    assert (w0 = w') as -> by congruence.
    split_and!; [done|done|]. intros m Hm. apply Hout. by apply Hold.
  - split; [by eapply engine_inv_mark|]. split_and!; [done|done|].
    intros m Hm. destruct (Hold m Hm) as [_ Hnot].
    unfold setitem in Hrun. destruct (heap w !! r); [|done].
    injection Hrun as <-. simpl. apply list_lookup_insert_ne.
    intros ->. apply Hnot. by eapply dict_get_values.
Qed.

Lemma engine_run_keeps s s' :
  engine_inv s.1 s.2 →
  rtc (engine_step clock round2) s s' →
  engine_inv s'.1 s'.2 ∧
  processed_messages s.2 `prefix_of` processed_messages s'.2 ∧
  dict_keys (registered_services s.2)
    `prefix_of` dict_keys (registered_services s'.2) ∧
  ∀ m, m ∈ processed_messages s.2 → heap s'.1 !! m = heap s.1 !! m.
Proof.
  intros Hinv Hrun. induction Hrun as [s|s s1 s2 Hstep _ IH]; [done|].
  destruct (engine_step_keeps s s1 Hinv Hstep) as (Hinv1 & Hp1 & Hk1 & Hf1).
  destruct (IH Hinv1) as (Hinv2 & Hp2 & Hk2 & Hf2).
  split_and!; [done|by etrans|by etrans|].
  intros m Hm. rewrite Hf2, Hf1; [done|done|].
  destruct Hp1 as [k ->]. apply elem_of_app. by left.
Qed.

(** X8. The processed log only grows, and no entry of a logged message
    is written to again: whatever calls follow a reachable state, the log of
    that state is an initial part of the later log (and the queue stays
    equal to it), and every message in it reads the same afterwards under
    each key that is absent or holds a scalar (source, target, timestamp,
    status, error). *)
Theorem processed_log_append_only w e w' e' :
  reachable clock round2 w e →
  rtc (engine_step clock round2) (w, e) (w', e') →
  processed_messages e `prefix_of` processed_messages e' ∧
  message_queue e' = processed_messages e' ∧
  ∀ m k, m ∈ processed_messages e →
    (∀ v, field w m k = Some v → scalar v) →
    field w' m k = field w m k.
Proof.
  intros Hreach Hrun.
  destruct (engine_run_keeps (w, e) (w', e')
              (reachable_inv clock round2 w e Hreach) Hrun)
    as ((_ & Hlogs & _) & Hp & _ & Hf).
  simpl in Hf. split_and!; [done|done|]. intros m k Hm _. unfold field.
  by rewrite (Hf m Hm).
Qed.

(** X9. No call removes or reorders a registered service: whatever calls
    follow a reachable state, the registry's names of that state are an
    initial part of the later names, so a registered name stays
    registered. *)
Theorem registered_names_kept w e w' e' :
  reachable clock round2 w e →
  rtc (engine_step clock round2) (w, e) (w', e') →
  dict_keys (registered_services e)
    `prefix_of` dict_keys (registered_services e') ∧
  ∀ name, registered e name → registered e' name.
Proof.
  intros Hreach Hrun.
  destruct (engine_run_keeps (w, e) (w', e')
              (reachable_inv clock round2 w e Hreach) Hrun)
    as (_ & _ & Hk & _).
  simpl in Hk. split; [done|]. intros name Hreg.
  apply dict_mem_true, dict_mem_keys. apply dict_mem_true, dict_mem_keys in Hreg.
  destruct Hk as [k Hk]. rewrite Hk. apply elem_of_app. by left.
Qed.

End EngineMore.

(* ===================================================================== *)
(** ** More about the health monitor *)
(* ===================================================================== *)

Section HealthMore.
Variable clock : nat -> float.
Variable round2 : float -> float.
Import SelfHealing.

Lemma inactive_names_same_heap w w' services :
  heap w' = heap w → inactive_names w' services = inactive_names w services.
Proof. intros Heq. apply inactive_names_ext. intros l _. by rewrite Heq. Qed.

(** X10. [check_health] keeps no record of what it has already reported:
    a second check of an unchanged registry returns the same status and the
    same issues, and appends these issues to the fault log a second time. *)
Theorem check_health_repeated self services w :
  refs_ok w services →
  ∃ rep1 self1 w1 rep2 self2 w2,
    check_health clock self services w = Ret (rep1, self1) w1 ∧
    check_health clock self1 services w1 = Ret (rep2, self2) w2 ∧
    dict_get "status" rep2 = dict_get "status" rep1 ∧
    dict_get "issues" rep2 = dict_get "issues" rep1 ∧
    fault_log self2 =
      fault_log self ++ map inactive_issue (inactive_names w services)
                     ++ map inactive_issue (inactive_names w services).
Proof.
  intros Hok. rewrite check_health_eq by done.
  set (w1 := World (heap w) (S (ticks w)) (draws w)).
  assert (refs_ok w1 services) as Hok1 by done.
  do 3 eexists. rewrite check_health_eq by done.
  rewrite (inactive_names_same_heap w w1) by done.
  do 3 eexists. split; [done|]. split; [done|].
  destruct (inactive_names w services) as [|name names]; simpl.
  - by rewrite !app_nil_r.
  - split_and!; [done|done|]. by rewrite <- app_assoc.
Qed.

Lemma repair_loop_active services : ∀ rs w,
  refs_ok w services →
  (∀ l, l ∈ dict_values services → is_active w l = true) →
  repair_loop clock services rs w = Ret rs w.
Proof.
  induction services as [|[name l] rest IH]; intros rs w Hok Hall; [done|].
  apply refs_ok_cons in Hok as [[d Hd] Hok]. simpl.
  unfold mbind at 1, M_bind at 1, deref. rewrite Hd.
  rewrite (get_ne_str_is_active w l d Hd).
  rewrite (Hall l) by apply list_elem_of_here. simpl.
  apply IH; [done|]. intros l' Hl'. by apply Hall, list_elem_of_further.
Qed.

Lemma auto_repair_active self services w :
  refs_ok w services →
  (∀ l, l ∈ dict_values services → is_active w l = true) →
  auto_repair clock self services w =
    Ret ([], with_status (extend_repairs self []) "healthy") w.
Proof.
  intros Hok Hall. unfold auto_repair, mbind, M_bind.
  rewrite repair_loop_active by done.
  rewrite not_active_eq by done. rewrite filter_none; [done|].
  intros l Hl. by rewrite Hall.
Qed.

(** X11. On a registry whose services are all active [auto_repair] has
    nothing to do: it returns no repair action, changes no object, does not
    read the clock, leaves the repair log and the fault log as they were,
    and sets the health status to 'healthy'. *)
Theorem auto_repair_nothing_to_do self services w :
  refs_ok w services →
  (∀ l, l ∈ dict_values services →
     field w l "status" = Some (PStr "active")) →
  ∃ self',
    auto_repair clock self services w = Ret ([], self') w ∧
    repairs self' = repairs self ∧
    fault_log self' = fault_log self ∧
    health_status self' = "healthy".
Proof.
  intros Hok Hall. eexists. split.
  - apply auto_repair_active; [done|].
    intros l Hl. by apply is_active_spec, Hall.
  - simpl. by rewrite app_nil_r.
Qed.

(** X12. [auto_repair] is idempotent: run a second time right after the
    first, on the same registry, it returns no repair action and changes
    neither the store nor the repair log. *)
Theorem auto_repair_idempotent self services w :
  refs_ok w services →
  ∃ rs self1 w1 self2,
    auto_repair clock self services w = Ret (rs, self1) w1 ∧
    auto_repair clock self1 services w1 = Ret ([], self2) w1 ∧
    repairs self2 = repairs self1 ∧
    repairs self1 = repairs self ++ rs.
Proof.
  intros Hok. destruct (auto_repair_spec clock self services w Hok)
    as (rs & w1 & Hrun & Hok1 & Hall & _).
  do 4 eexists. split; [done|]. split.
  - by apply auto_repair_active.
  - simpl. by rewrite app_nil_r.
Qed.

(** X13. [auto_repair] writes nothing but the 'status' key: every object of
    the store reads the same afterwards under each other key that is absent
    or holds a scalar (type, endpoint, registration time, message count, the
    source, target and timestamp of a message), and no object is created.
    Of the monitor it changes the repair log, to which it appends the actions
    it returns, and the health status; the fault log is not cleared. *)
Theorem auto_repair_frame self services w :
  refs_ok w services →
  ∃ rs self' w',
    auto_repair clock self services w = Ret (rs, self') w' ∧
    (∀ l k, k ≠ "status" →
       (∀ v, field w l k = Some v → scalar v) →
       field w' l k = field w l k) ∧
    length (heap w') = length (heap w) ∧
    repairs self' = repairs self ++ rs ∧
    fault_log self' = fault_log self ∧
    check_interval self' = check_interval self ∧
    _start_time self' = _start_time self.
Proof.
  intros Hok. destruct (auto_repair_spec clock self services w Hok)
    as (rs & w' & Hrun & Hok' & _ & Hkeep & Hfix & Hout & _).
  assert (length (heap w') = length (heap w)) as Hlen.
  { destruct (repair_loop_spec clock services [] w Hok)
      as (rs0 & w0 & Hrun0 & Hlen0 & _).
    unfold auto_repair, mbind, M_bind in Hrun. rewrite Hrun0 in Hrun.
    simpl in Hrun.
    destruct (not_active (dict_values services) w0) as [x w2|] eqn:Hna;
      [|done].
    assert (refs_ok w0 services) as Hok0 by by eapply refs_ok_length.
    rewrite not_active_eq in Hna by done. injection Hna as _ <-.
    by injection Hrun as _ _ <-. }
  do 3 eexists. split; [done|]. split_and!; try done.
  intros l k Hk _. unfold field.
  destruct (decide (l ∈ dict_values services)) as [Hin|Hnot].
  - destruct (is_active w l) eqn:Hact; [by rewrite Hkeep|].
    destruct (Hok l Hin) as [d Hd].
    rewrite (Hfix l d Hin Hd Hact), Hd. by apply dict_get_set_ne.
  - by rewrite Hout.
Qed.

(** X14. Detect, repair, verify, report. On a registry with one record
    per name and n services that are not active: a check, a repair, another
    check and [get_report], in this order, all return; the repair returns n
    actions, the second check says 'healthy', and the report says 'healthy'
    with 'faults_detected' and 'repairs_executed' both n larger than the
    monitor's logs were long before. *)
Theorem detect_repair_verify self services w :
  one_record_per_name services →
  refs_ok w services →
  let n := length (inactive_names w services) in
  ∃ rep1 self1 w1 rs self2 w2 rep3 self3 w3 report w4,
    check_health clock self services w = Ret (rep1, self1) w1 ∧
    auto_repair clock self1 services w1 = Ret (rs, self2) w2 ∧
    check_health clock self2 services w2 = Ret (rep3, self3) w3 ∧
    get_report clock round2 self3 w3 = Ret report w4 ∧
    length rs = n ∧
    dict_get "status" rep3 = Some (PStr "healthy") ∧
    dict_get "status" report = Some (PStr "healthy") ∧
    dict_get "faults_detected" report =
      Some (PInt (Z.of_nat (length (fault_log self) + n))) ∧
    dict_get "repairs_executed" report =
      Some (PInt (Z.of_nat (length (repairs self) + n))).
Proof.
  intros [_ Hnd] Hok n. rewrite check_health_eq by done.
  set (self1 := checked self _).
  set (w1 := World (heap w) (S (ticks w)) (draws w)).
  assert (refs_ok w1 services) as Hok1 by done.
  destruct (auto_repair_spec clock self1 services w1 Hok1)
    as (rs & w2 & Hrun & Hok2 & Hall & _ & _ & _ & Hrs).
  specialize (Hrs Hnd).
  rewrite (inactive_names_same_heap w w1) in Hrs by done.
  assert (length rs = n) as Hlen by (by rewrite Hrs, length_imap).
  assert (inactive_names w2 services = []) as Hnone.
  { apply inactive_names_nil. intros l Hl. by apply is_active_spec, Hall. }
  do 6 eexists. rewrite check_health_eq by done. rewrite Hnone.
  do 5 eexists. split; [done|]. split; [done|]. split; [done|].
  split; [reflexivity|]. simpl. split_and!; [done|done|done| |].
  - do 2 f_equal. unfold self1, n.
    destruct (inactive_names w services); simpl;
      rewrite ?length_app; simpl; rewrite ?length_map; lia.
  - do 2 f_equal. unfold self1.
    assert (repairs (checked self
                       (map inactive_issue (inactive_names w services)))
            = repairs self) as ->
      by by destruct (inactive_names w services).
    rewrite length_app. lia.
Qed.

End HealthMore.

(* ===================================================================== *)
(** ** More about the compute core *)
(* ===================================================================== *)

Section CoreMore.
Variable clock : nat -> float.
Variable gauss : nat -> float -> float -> float.
Variable round2 : float -> float.
Variable str_of : pyval -> string.
Import QuantumAICore.

(** [process] writes the log and the counter and nothing else of the core. *)
Lemma process_keeps self task w result self' w' :
  process clock gauss round2 str_of self task w = Ret (result, self') w' →
  self' = record_result self result.
Proof.
  unfold process. intros H.
  apply bind_Ret in H as (start & w1 & _ & H).
  apply bind_Ret in H as (now & w2 & _ & H).
  apply bind_Ret in H as (res & w3 & _ & H).
  apply bind_Ret in H as (finish & w4 & _ & H).
  by injection H as <- <- <-.
Qed.

(** X15. In every state a compute core can reach, the operation counter
    equals the length of the processing log, no model is loaded, and the
    backend and the optimisation level are still the ones read from the
    config at construction ('simulator' and 2 when the config has none). *)
Theorem core_counts_operations c :
  core_reachable clock gauss round2 str_of c →
  total_operations c = Z.of_nat (length (processing_log c)) ∧
  models_loaded c = [] ∧
  quantum_backend c =
    default_of (dict_get "quantum_backend" (config c)) (PStr "simulator") ∧
  optimization_level c =
    default_of (dict_get "optimization_level" (config c)) (PInt 2).
Proof.
  induction 1 as [cfg w0 c w Hinit|c task w result c' w' _ IH Hrun].
  - by injection Hinit as <- <-.
  - apply process_keeps in Hrun as ->. destruct IH as (Hops & Hm & Hb & Hl).
    simpl. split_and!; try done. rewrite Hops, length_app. simpl. lia.
Qed.

(** X16. A task of type 'health_check' always returns: the result has
    status 'completed' and no 'error', and its output reports version
    '2.0.6', status 'healthy', the configured backend, and as
    'total_operations' the number of operations before this call; the call
    itself is then counted. No random number is drawn. *)
Theorem process_health_check self task w :
  dict_get "type" task = Some (PStr "health_check") →
  ∃ result out self' w',
    process clock gauss round2 str_of self task w = Ret (result, self') w' ∧
    dict_get "status" result = Some (PStr "completed") ∧
    dict_get "error" result = None ∧
    dict_get "output" result = Some (PDict out) ∧
    dict_get "version" out = Some (PStr "2.0.6") ∧
    dict_get "status" out = Some (PStr "healthy") ∧
    dict_get "quantum_backend" out = Some (quantum_backend self) ∧
    dict_get "total_operations" out = Some (PInt (total_operations self)) ∧
    total_operations self' = total_operations self + 1 ∧
    draws w' = draws w.
Proof.
  intros Hty. unfold process. rewrite Hty.
  unfold mbind, M_bind, mret, M_ret, time_time, default_of, health_check.
  cbn. do 4 eexists. split; [done|]. by split_and!.
Qed.

(** X17. A task of type 'ml_inference' whose parameters are a dictionary
    (or are left out) returns with status 'completed'; the output names the
    model given under 'model' ('default' when there is none) and carries
    the fixed prediction 'inference_placeholder' with confidence 0.95,
    whatever the task's data are. Neither the store nor the random
    generator is touched. *)
Theorem process_ml_inference self task p w :
  dict_get "type" task = Some (PStr "ml_inference") →
  default_of (dict_get "parameters" task) (PDict []) = PDict p →
  ∃ result self' w',
    process clock gauss round2 str_of self task w = Ret (result, self') w' ∧
    dict_get "status" result = Some (PStr "completed") ∧
    dict_get "output" result =
      Some (PDict [("model", default_of (dict_get "model" p) (PStr "default"));
                   ("prediction", PStr "inference_placeholder");
                   ("confidence", PFloat 0.95%float)]) ∧
    heap w' = heap w ∧
    draws w' = draws w.
Proof.
  intros Hty Hp. unfold process. rewrite Hty, Hp.
  unfold mbind, M_bind, mret, M_ret, time_time, default_of, _ml_inference,
    py_get, mbind, M_bind, mret, M_ret.
  cbn. do 3 eexists. split; [done|]. by split_and!.
Qed.

(** X18. For the three computing task types, parameters that are given
    but are not a dictionary make [process] raise AttributeError: no result
    is returned, so nothing is logged and nothing is counted. *)
Theorem process_parameters_not_dict self task ty v w :
  dict_get "type" task = Some (PStr ty) →
  ty = "quantum_optimize" ∨ ty = "ml_inference" ∨ ty = "hybrid_compute" →
  dict_get "parameters" task = Some v →
  (∀ p, v ≠ PDict p) →
  process clock gauss round2 str_of self task w = Raise AttributeError.
Proof.
  intros Hty Hknown Hv Hnot. unfold process. rewrite Hty, Hv.
  assert (∀ k dflt w0, py_get v k dflt w0 = Raise AttributeError) as Hget.
  { intros k dflt w0. destruct v; try done. by destruct (Hnot d). }
  unfold mbind, M_bind, mret, M_ret, time_time, default_of.
  destruct Hknown as [->|[->| ->]]; cbn;
    unfold _hybrid_compute, _quantum_optimize, _ml_inference, mbind, M_bind;
    rewrite ?Hget; try done.
  all: destruct (default_of (dict_get "data" task) (PDict [])) eqn:Hdata;
    unfold default_of in Hdata; rewrite Hdata; cbn; try done.
  all: by rewrite Hget.
Qed.

Lemma py_range_iterations v w :
  py_range v w = match iterations_of v with
                 | Some n => Ret n w
                 | None => Raise TypeError
                 end.
Proof. by destruct v. Qed.

(** The annealing loop: it draws once per iteration, cools the temperature
    once per iteration, and ends with the score it started from or with one
    of the candidates it drew. *)
Lemma anneal_spec n : ∀ objective best t w,
  ∃ best',
    anneal gauss n objective best t w =
      Ret (best', cooled n t) (World (heap w) (ticks w) (draws w + n)) ∧
    (best' = best ∨
     ∃ i, (i < n)%nat ∧ best' = gauss (draws w + i)%nat 0%float (cooled i t)) ∧
    (py_eq_str objective "minimize" = false →
     py_eq_str objective "maximize" = false → best' = best).
Proof.
  induction n as [|n IH]; intros objective best t w.
  { exists best. rewrite Nat.add_0_r. destruct w. by split_and!; [|left|]. }
  cbn [anneal]. unfold mbind, M_bind, random_gauss.
  set (candidate := gauss (draws w) 0%float t).
  set (best1 := if py_eq_str objective "minimize" && _ then _ else _).
  destruct (IH objective best1 (PrimFloat.mul t cooling_rate)
              (World (heap w) (ticks w) (S (draws w))))
    as (best' & Hrun & Hfrom & Hother).
  exists best'. split_and!.
  - rewrite Hrun. simpl. do 2 f_equal. lia.
  - assert (best1 = best ∨ best1 = candidate) as Hbest1.
    { unfold best1. destruct (_ && _); [by right|].
      destruct (_ && _); [by right|by left]. }
    destruct Hfrom as [->|(i & Hi & ->)].
    + destruct Hbest1 as [->| ->]; [by left|]. right. exists 0%nat.
      split; [lia|]. unfold candidate. by rewrite Nat.add_0_r.
    + right. exists (S i). split; [lia|]. simpl. f_equal. lia.
  - intros Hmin Hmax. rewrite (Hother Hmin Hmax).
    unfold best1. by rewrite Hmin, Hmax.
Qed.

(** X19. An 'iterations' parameter that is not an integer (a float, a
    string, None, ...) makes [_quantum_optimize] raise TypeError. *)
Theorem quantum_optimize_iterations_not_int d p v w :
  dict_get "iterations" p = Some v →
  iterations_of v = None →
  _quantum_optimize gauss (PDict d) (PDict p) w = Raise TypeError.
Proof.
  intros Hv Hnone. unfold _quantum_optimize, py_get.
  unfold mbind, M_bind, mret, M_ret, default_of. rewrite Hv.
  by rewrite py_range_iterations, Hnone.
Qed.

(** X20. With data and parameters that are dictionaries and n iterations
    (100 when none are given, 0 for a negative number), [_quantum_optimize]
    returns, having drawn exactly n random numbers. The result echoes
    'iterations', names the method, and gives as 'final_temperature' the
    start temperature 1.0 cooled n times, whatever the objective and the
    draws. Its 'best_score' is the initial infinity or one of the n
    candidates drawn; with no iteration it is the initial infinity. *)
Theorem quantum_optimize_result d p n w :
  let objective := default_of (dict_get "objective" d) (PStr "minimize") in
  let iterations := default_of (dict_get "iterations" p) (PInt 100) in
  iterations_of iterations = Some n →
  ∃ best,
    _quantum_optimize gauss (PDict d) (PDict p) w =
      Ret [("best_score", PFloat best);
           ("iterations", iterations);
           ("final_temperature", PFloat (cooled n 1%float));
           ("method", PStr "quantum_annealing_sim")]
          (World (heap w) (ticks w) (draws w + n)) ∧
    (best = initial_score objective ∨
     ∃ i, (i < n)%nat ∧
          best = gauss (draws w + i)%nat 0%float (cooled i 1%float)).
Proof.
  intros objective iterations Hn. unfold _quantum_optimize, py_get.
  unfold mbind, M_bind, mret, M_ret. fold objective iterations.
  rewrite py_range_iterations, Hn.
  destruct (anneal_spec n objective (initial_score objective) 1%float w)
    as (best & Hrun & Hfrom & _).
  exists best. unfold initial_score in Hrun. rewrite Hrun. by destruct w.
Qed.

(** X21. An objective that is neither 'minimize' nor 'maximize' is not
    rejected: [_quantum_optimize] runs all iterations, keeps no candidate,
    and returns minus infinity as 'best_score'. *)
Theorem quantum_optimize_other_objective d p n w :
  let objective := default_of (dict_get "objective" d) (PStr "minimize") in
  let iterations := default_of (dict_get "iterations" p) (PInt 100) in
  objective ≠ PStr "minimize" →
  objective ≠ PStr "maximize" →
  iterations_of iterations = Some n →
  _quantum_optimize gauss (PDict d) (PDict p) w =
    Ret [("best_score", PFloat PrimFloat.neg_infinity);
         ("iterations", iterations);
         ("final_temperature", PFloat (cooled n 1%float));
         ("method", PStr "quantum_annealing_sim")]
        (World (heap w) (ticks w) (draws w + n)).
Proof.
  intros objective iterations Hmin Hmax Hn.
  apply py_eq_str_ne in Hmin, Hmax.
  unfold _quantum_optimize, py_get.
  unfold mbind, M_bind, mret, M_ret. fold objective iterations.
  rewrite py_range_iterations, Hn.
  destruct (anneal_spec n objective (initial_score objective) 1%float w)
    as (best & Hrun & _ & Hother).
  rewrite (Hother Hmin Hmax) in Hrun. unfold initial_score in Hrun.
  rewrite Hmin in Hrun. rewrite Hmin, Hrun. by destruct w.
Qed.

(** X22. [_hybrid_compute] is [_quantum_optimize] followed by
    [_ml_inference] on the same arguments: when the optimisation returns,
    the inference returns too without touching the world, the two results
    are passed on under 'quantum' and 'classical', and 'hybrid_score' is
    the optimisation's best score times the inference's confidence 0.95. *)
Theorem hybrid_compute_composes data params w q w1 :
  _quantum_optimize gauss data params w = Ret q w1 →
  ∃ c best,
    _ml_inference data params w1 = Ret c w1 ∧
    dict_get "best_score" q = Some (PFloat best) ∧
    dict_get "confidence" c = Some (PFloat 0.95%float) ∧
    _hybrid_compute gauss data params w =
      Ret [("quantum", PDict q); ("classical", PDict c);
           ("hybrid_score", PFloat (PrimFloat.mul best 0.95%float))] w1.
Proof.
  intros Hq. unfold _hybrid_compute, mbind, M_bind. rewrite Hq.
  destruct data as [| | | | | |d]; try done.
  destruct params as [| | | | | |p]; try done.
  unfold _quantum_optimize, py_get in Hq.
  unfold mbind, M_bind, mret, M_ret in Hq.
  rewrite py_range_iterations in Hq.
  destruct (iterations_of _) as [n|]; [|done].
  destruct (anneal_spec n (default_of (dict_get "objective" d)
                             (PStr "minimize"))
              (initial_score (default_of (dict_get "objective" d)
                                (PStr "minimize"))) 1%float w)
    as (best & Hrun & _).
  unfold initial_score in Hrun. rewrite Hrun in Hq.
  injection Hq as <- <-. by do 2 eexists.
Qed.

End CoreMore.

(* ===================================================================== *)
(** ** The further theorems at the sample run *)
(* ===================================================================== *)

Lemma register_service_new_witness :
  ¬ registered sample_engine "C" ∧
  ∃ self' w',
    IntegrationEngine.register_service sample_clock sample_engine
      "C" "cache" "" None sample_world = Ret self' w' ∧
    dict_keys (IntegrationEngine.registered_services self') = ["A"; "B"; "C"].
Proof.
  assert (¬ registered sample_engine "C") as Hnot by by intros [? ?].
  split; [exact Hnot|].
  destruct (register_service_new sample_clock sample_engine
              "C" "cache" "" None sample_world Hnot)
    as (self' & w' & Hrun & Hkeys & _).
  by exists self', w'.
Defined.

Lemma send_message_content_witness :
  registry_ok sample_world (IntegrationEngine.registered_services sample_engine) ∧
  ∃ m self' w',
    IntegrationEngine.send_message sample_clock sample_engine "nobody" "B"
      [("k", PInt 1)] sample_world = Ret (m, self') w' ∧
    field w' m "source" = Some (PStr "nobody") ∧
    field w' m "target" = Some (PStr "B") ∧
    field w' m "timestamp" = Some (PFloat 5%float).
Proof.
  split; [exact sample_registry_ok|].
  destruct (send_message_content sample_clock sample_engine "nobody" "B"
              [("k", PInt 1)] sample_world sample_registry_ok)
    as (m & self' & w' & Hrun & _ & Hsrc & Htgt & Htime & _).
  by exists m, self', w'.
Defined.

Lemma broadcast_from_outside_witness :
  registry_ok sample_world (IntegrationEngine.registered_services sample_engine) ∧
  ¬ registered sample_engine "nobody" ∧
  ∃ ms self' w',
    IntegrationEngine.broadcast sample_clock sample_engine "nobody" []
      sample_world = Ret (ms, self') w' ∧
    length ms = 2%nat.
Proof.
  assert (¬ registered sample_engine "nobody") as Hnot by by intros [? ?].
  split; [exact sample_registry_ok|]. split; [exact Hnot|].
  destruct (broadcast_from_outside sample_clock sample_engine "nobody" []
              sample_world sample_registry_ok Hnot)
    as (ms & self' & w' & Hrun & _ & Hlen & _).
  by exists ms, self', w'.
Defined.


Lemma broadcast_to_nobody_witness :
  let lonely := IntegrationEngine.Engine [("A", 0%nat)] [] [] [] 0%float in
  (∀ name, registered lonely name → name = "A") ∧
  IntegrationEngine.broadcast sample_clock lonely "A" [] sample_world
    = Ret ([], lonely) sample_world.
Proof.
  intros lonely.
  assert (∀ name, registered lonely name → name = "A") as Hall.
  { intros name [r Hr]. unfold lonely in Hr. simpl in Hr.
    by destruct (String.eqb_spec name "A"). }
  split; [exact Hall|].
  exact (broadcast_to_nobody sample_clock lonely "A" [] sample_world Hall).
Defined.

Lemma integration_report_contents_witness :
  reachable sample_clock sample_round2 sample_world sample_engine ∧
  ∃ rep w',
    IntegrationEngine.get_integration_report sample_clock sample_round2
      sample_engine sample_world = Ret rep w' ∧
    dict_get "services_registered" rep = Some (PInt 2) ∧
    dict_get "messages_processed" rep = Some (PInt 2).
Proof.
  split; [exact sample_reachable|].
  destruct (integration_report_contents sample_clock sample_round2
              sample_world sample_engine sample_reachable)
    as (rep & w' & Hrun & _ & _ & _ & Hn & Hm & _).
  by exists rep, w'.
Defined.

Lemma sample_run :
  rtc (engine_step sample_clock sample_round2)
      (sample_world, sample_engine) (sample_world_sent, sample_engine_sent).
Proof.
  apply rtc_once.
  apply (step_send _ _ sample_world sample_engine "A" "B" [] 4%nat).
  vm_compute. reflexivity.
Qed.

Lemma processed_log_append_only_witness :
  reachable sample_clock sample_round2 sample_world sample_engine ∧
  rtc (engine_step sample_clock sample_round2)
      (sample_world, sample_engine) (sample_world_sent, sample_engine_sent) ∧
  (∀ v, field sample_world 2%nat "status" = Some v → scalar v) ∧
  IntegrationEngine.processed_messages sample_engine
    `prefix_of` IntegrationEngine.processed_messages sample_engine_sent ∧
  field sample_world_sent 2%nat "status" = Some (PStr "delivered").
Proof.
  assert (∀ v, field sample_world 2%nat "status" = Some v → scalar v) as Hsc
    by (by intros v [= <-]).
  split; [exact sample_reachable|]. split; [exact sample_run|].
  split; [exact Hsc|].
  destruct (processed_log_append_only sample_clock sample_round2
              sample_world sample_engine sample_world_sent
              sample_engine_sent sample_reachable sample_run)
    as (Hprefix & _ & Hsame).
  split; [exact Hprefix|].
  rewrite (Hsame 2%nat "status"); [done| |exact Hsc].
  apply list_elem_of_here.
Defined.

Lemma registered_names_kept_witness :
  reachable sample_clock sample_round2 sample_world sample_engine ∧
  rtc (engine_step sample_clock sample_round2)
      (sample_world, sample_engine) (sample_world_sent, sample_engine_sent) ∧
  ∀ name, registered sample_engine name → registered sample_engine_sent name.
Proof.
  split; [exact sample_reachable|]. split; [exact sample_run|].
  by destruct (registered_names_kept sample_clock sample_round2
                 sample_world sample_engine sample_world_sent
                 sample_engine_sent sample_reachable sample_run)
    as (_ & Hkept).
Defined.

Lemma check_health_repeated_witness :
  refs_ok sample_world (IntegrationEngine.registered_services sample_engine) ∧
  ∃ rep1 self1 w1 rep2 self2 w2,
    SelfHealing.check_health sample_clock sample_monitor
      (IntegrationEngine.registered_services sample_engine) sample_world
      = Ret (rep1, self1) w1 ∧
    SelfHealing.check_health sample_clock self1
      (IntegrationEngine.registered_services sample_engine) w1
      = Ret (rep2, self2) w2 ∧
    length (SelfHealing.fault_log self2) = 2%nat.
Proof.
  split; [exact sample_refs_ok|].
  destruct (check_health_repeated sample_clock sample_monitor
              (IntegrationEngine.registered_services sample_engine)
              sample_world sample_refs_ok)
    as (rep1 & self1 & w1 & rep2 & self2 & w2 & H1 & H2 & _ & _ & Hlog).
  exists rep1, self1, w1, rep2, self2, w2. split_and!; [done|done|].
  by rewrite Hlog.
Defined.

Lemma sample_refs_ok_A : refs_ok sample_world [("A", 0%nat)].
Proof.
  intros l Hl. apply list_elem_of_singleton in Hl as ->. by eexists.
Qed.

Lemma auto_repair_nothing_to_do_witness :
  refs_ok sample_world [("A", 0%nat)] ∧
  (∀ l, l ∈ dict_values [("A", 0%nat)] →
     field sample_world l "status" = Some (PStr "active")) ∧
  ∃ self',
    SelfHealing.auto_repair sample_clock sample_monitor [("A", 0%nat)]
      sample_world = Ret ([], self') sample_world ∧
    SelfHealing.health_status self' = "healthy".
Proof.
  assert (∀ l, l ∈ dict_values [("A", 0%nat)] →
            field sample_world l "status" = Some (PStr "active")) as Hall.
  { intros l Hl. by apply list_elem_of_singleton in Hl as ->. }
  split; [exact sample_refs_ok_A|]. split; [exact Hall|].
  destruct (auto_repair_nothing_to_do sample_clock sample_monitor
              [("A", 0%nat)] sample_world sample_refs_ok_A Hall)
    as (self' & Hrun & _ & _ & Hst).
  by exists self'.
Defined.

Lemma auto_repair_idempotent_witness :
  refs_ok sample_world (IntegrationEngine.registered_services sample_engine) ∧
  ∃ rs self1 w1 self2,
    SelfHealing.auto_repair sample_clock sample_monitor
      (IntegrationEngine.registered_services sample_engine) sample_world
      = Ret (rs, self1) w1 ∧
    SelfHealing.auto_repair sample_clock self1
      (IntegrationEngine.registered_services sample_engine) w1
      = Ret ([], self2) w1.
Proof.
  split; [exact sample_refs_ok|].
  destruct (auto_repair_idempotent sample_clock sample_monitor
              (IntegrationEngine.registered_services sample_engine)
              sample_world sample_refs_ok)
    as (rs & self1 & w1 & self2 & H1 & H2 & _).
  by exists rs, self1, w1, self2.
Defined.

Lemma auto_repair_frame_witness :
  refs_ok sample_world (IntegrationEngine.registered_services sample_engine) ∧
  (∀ v, field sample_world 1%nat "message_count" = Some v → scalar v) ∧
  ∃ rs self' w',
    SelfHealing.auto_repair sample_clock sample_monitor
      (IntegrationEngine.registered_services sample_engine) sample_world
      = Ret (rs, self') w' ∧
    field w' 1%nat "message_count" = Some (PInt 1).
Proof.
  assert (∀ v, field sample_world 1%nat "message_count" = Some v → scalar v)
    as Hsc by (by intros v [= <-]).
  split; [exact sample_refs_ok|]. split; [exact Hsc|].
  destruct (auto_repair_frame sample_clock sample_monitor
              (IntegrationEngine.registered_services sample_engine)
              sample_world sample_refs_ok)
    as (rs & self' & w' & Hrun & Hkeys & _).
  exists rs, self', w'. split; [done|]. by rewrite Hkeys.
Defined.

Lemma detect_repair_verify_witness :
  one_record_per_name (IntegrationEngine.registered_services sample_engine) ∧
  refs_ok sample_world (IntegrationEngine.registered_services sample_engine) ∧
  ∃ rep1 self1 w1 rs self2 w2 rep3 self3 w3 report w4,
    SelfHealing.check_health sample_clock sample_monitor
      (IntegrationEngine.registered_services sample_engine) sample_world
      = Ret (rep1, self1) w1 ∧
    SelfHealing.auto_repair sample_clock self1
      (IntegrationEngine.registered_services sample_engine) w1
      = Ret (rs, self2) w2 ∧
    SelfHealing.check_health sample_clock self2
      (IntegrationEngine.registered_services sample_engine) w2
      = Ret (rep3, self3) w3 ∧
    SelfHealing.get_report sample_clock sample_round2 self3 w3
      = Ret report w4 ∧
    dict_get "faults_detected" report = Some (PInt 1) ∧
    dict_get "repairs_executed" report = Some (PInt 1).
Proof.
  pose proof sample_registry_ok as [Hone _].
  split; [exact Hone|]. split; [exact sample_refs_ok|].
  destruct (detect_repair_verify sample_clock sample_round2 sample_monitor
              (IntegrationEngine.registered_services sample_engine)
              sample_world Hone sample_refs_ok)
    as (rep1 & self1 & w1 & rs & self2 & w2 & rep3 & self3 & w3 & report & w4
        & H1 & H2 & H3 & H4 & _ & _ & _ & Hf & Hr).
  exists rep1, self1, w1, rs, self2, w2, rep3, self3, w3, report, w4.
  by split_and!.
Defined.

Lemma sample_core_used_reachable :
  core_reachable sample_clock sample_gauss sample_round2 sample_str_of
    sample_core_used.
Proof.
  set (cfg := [("quantum_backend", PStr "ibmq")]).
  set (r1 := [("task_type", PStr "train_model"); ("status", PStr "error");
              ("timestamp", PFloat 2%float);
              ("error", PStr "Unknown task type: train_model");
              ("duration", PFloat 2%float)]).
  apply (core_process _ _ _ _
           (QuantumAICore.Core cfg [r1] [] (PStr "ibmq") (PInt 2) 0%float 1)
           [("type", PStr "ml_inference")] (World [] 4 0)
           [("task_type", PStr "ml_inference"); ("status", PStr "completed");
            ("timestamp", PFloat 5%float);
            ("output", PDict [("model", PStr "default");
                              ("prediction", PStr "inference_placeholder");
                              ("confidence", PFloat 0.95%float)]);
            ("duration", PFloat 2%float)]
           sample_core_used (World [] 7 0)); [|vm_compute; reflexivity].
  apply (core_process _ _ _ _
           (QuantumAICore.Core cfg [] [] (PStr "ibmq") (PInt 2) 0%float 0)
           [("type", PStr "train_model")] (World [] 1 0) r1 _ (World [] 4 0));
    [|vm_compute; reflexivity].
  apply (core_init _ _ _ _ (Some cfg) (World [] 0 0) _ (World [] 1 0)).
  vm_compute. reflexivity.
Qed.

Lemma core_counts_operations_witness :
  core_reachable sample_clock sample_gauss sample_round2 sample_str_of
    sample_core_used ∧
  QuantumAICore.total_operations sample_core_used = 2 ∧
  length (QuantumAICore.processing_log sample_core_used) = 2%nat ∧
  QuantumAICore.quantum_backend sample_core_used = PStr "ibmq".
Proof.
  split; [exact sample_core_used_reachable|].
  destruct (core_counts_operations sample_clock sample_gauss sample_round2
              sample_str_of sample_core_used sample_core_used_reachable)
    as (Hops & _ & Hbackend & _).
  split_and!; [|done|exact Hbackend]. by rewrite Hops.
Defined.

Lemma process_health_check_witness :
  let task := [("type", PStr "health_check")] in
  dict_get "type" task = Some (PStr "health_check") ∧
  ∃ result self' w',
    QuantumAICore.process sample_clock sample_gauss sample_round2
      sample_str_of sample_core task sample_world = Ret (result, self') w' ∧
    dict_get "status" result = Some (PStr "completed") ∧
    QuantumAICore.total_operations self' = 1.
Proof.
  intros task.
  assert (dict_get "type" task = Some (PStr "health_check")) as Hty by done.
  split; [exact Hty|].
  destruct (process_health_check sample_clock sample_gauss sample_round2
              sample_str_of sample_core task sample_world Hty)
    as (result & out & self' & w' & Hrun & Hst & _ & _ & _ & _ & _ & _
        & Hops & _).
  by exists result, self', w'.
Defined.

Lemma process_ml_inference_witness :
  let p := [("model", PStr "resnet")] in
  let task := [("type", PStr "ml_inference"); ("data", PInt 7);
               ("parameters", PDict p)] in
  dict_get "type" task = Some (PStr "ml_inference") ∧
  default_of (dict_get "parameters" task) (PDict []) = PDict p ∧
  ∃ result self' w',
    QuantumAICore.process sample_clock sample_gauss sample_round2
      sample_str_of sample_core task sample_world = Ret (result, self') w' ∧
    dict_get "output" result =
      Some (PDict [("model", PStr "resnet");
                   ("prediction", PStr "inference_placeholder");
                   ("confidence", PFloat 0.95%float)]).
Proof.
  intros p task.
  assert (dict_get "type" task = Some (PStr "ml_inference")) as Hty by done.
  assert (default_of (dict_get "parameters" task) (PDict []) = PDict p)
    as Hp by done.
  split; [exact Hty|]. split; [exact Hp|].
  destruct (process_ml_inference sample_clock sample_gauss sample_round2
              sample_str_of sample_core task p sample_world Hty Hp)
    as (result & self' & w' & Hrun & _ & Hout & _).
  by exists result, self', w'.
Defined.

Lemma process_parameters_not_dict_witness :
  let task := [("type", PStr "hybrid_compute"); ("parameters", PInt 3)] in
  dict_get "type" task = Some (PStr "hybrid_compute") ∧
  dict_get "parameters" task = Some (PInt 3) ∧
  (∀ p, PInt 3 ≠ PDict p) ∧
  QuantumAICore.process sample_clock sample_gauss sample_round2
    sample_str_of sample_core task sample_world = Raise AttributeError.
Proof.
  intros task.
  assert (dict_get "type" task = Some (PStr "hybrid_compute")) as Hty by done.
  assert (dict_get "parameters" task = Some (PInt 3)) as Hv by done.
  assert (∀ p, PInt 3 ≠ PDict p) as Hnot by done.
  split_and!; [done..|].
  apply (process_parameters_not_dict sample_clock sample_gauss sample_round2
           sample_str_of sample_core task "hybrid_compute" (PInt 3)
           sample_world Hty); [tauto|exact Hv|exact Hnot].
Defined.

Lemma quantum_optimize_iterations_not_int_witness :
  let p := [("iterations", PStr "10")] in
  dict_get "iterations" p = Some (PStr "10") ∧
  iterations_of (PStr "10") = None ∧
  QuantumAICore._quantum_optimize sample_gauss (PDict []) (PDict p)
    sample_world = Raise TypeError.
Proof.
  intros p. split_and!; [done..|].
  by apply (quantum_optimize_iterations_not_int sample_gauss [] p (PStr "10")
              sample_world).
Defined.

Lemma quantum_optimize_result_witness :
  let p := [("iterations", PInt 3)] in
  iterations_of (default_of (dict_get "iterations" p) (PInt 100)) = Some 3%nat ∧
  ∃ best w',
    QuantumAICore._quantum_optimize sample_gauss (PDict []) (PDict p)
      sample_world
      = Ret [("best_score", PFloat best); ("iterations", PInt 3);
             ("final_temperature", PFloat (cooled 3 1%float));
             ("method", PStr "quantum_annealing_sim")] w' ∧
    draws w' = 3%nat.
Proof.
  intros p.
  assert (iterations_of (default_of (dict_get "iterations" p) (PInt 100))
          = Some 3%nat) as Hn by done.
  split; [exact Hn|].
  destruct (quantum_optimize_result sample_gauss [] p 3 sample_world Hn)
    as (best & Hrun & _).
  by do 2 eexists.
Defined.

Lemma quantum_optimize_other_objective_witness :
  let d := [("objective", PStr "min")] in
  let objective := default_of (dict_get "objective" d) (PStr "minimize") in
  let iterations := default_of (dict_get "iterations" []) (PInt 100) in
  objective ≠ PStr "minimize" ∧
  objective ≠ PStr "maximize" ∧
  iterations_of iterations = Some 100%nat ∧
  ∃ w',
    QuantumAICore._quantum_optimize sample_gauss (PDict d) (PDict [])
      sample_world
      = Ret [("best_score", PFloat PrimFloat.neg_infinity);
             ("iterations", PInt 100);
             ("final_temperature", PFloat (cooled 100 1%float));
             ("method", PStr "quantum_annealing_sim")] w'.
Proof.
  intros d objective iterations.
  assert (objective ≠ PStr "minimize") as Hmin by done.
  assert (objective ≠ PStr "maximize") as Hmax by done.
  assert (iterations_of iterations = Some 100%nat) as Hn by done.
  split_and!; [done..|]. eexists.
  exact (quantum_optimize_other_objective sample_gauss d [] 100 sample_world
           Hmin Hmax Hn).
Defined.

Lemma hybrid_compute_composes_witness :
  let q := [("best_score", PFloat PrimFloat.infinity); ("iterations", PInt 0);
            ("final_temperature", PFloat 1%float);
            ("method", PStr "quantum_annealing_sim")] in
  let params := PDict [("iterations", PInt 0)] in
  QuantumAICore._quantum_optimize sample_gauss (PDict []) params sample_world
    = Ret q sample_world ∧
  ∃ c best,
    QuantumAICore._hybrid_compute sample_gauss (PDict []) params sample_world
      = Ret [("quantum", PDict q); ("classical", PDict c);
             ("hybrid_score", PFloat (PrimFloat.mul best 0.95%float))]
            sample_world.
Proof.
  intros q params.
  assert (QuantumAICore._quantum_optimize sample_gauss (PDict []) params
            sample_world = Ret q sample_world) as Hq by (vm_compute; reflexivity).
  split; [exact Hq|].
  destruct (hybrid_compute_composes sample_gauss (PDict []) params
              sample_world q sample_world Hq)
    as (c & best & _ & _ & _ & Hrun).
  by exists c, best.
Defined.

(* ===================================================================== *)
(** ** What the message counters count *)
(* ===================================================================== *)

Section Counters.
Variable clock : nat -> float.
Variable round2 : float -> float.
Import IntegrationEngine.

Lemma filter_ext_elem {A : Type} (f g : A → bool) (xs : list A) :
  (∀ x, x ∈ xs → f x = g x) → List.filter f xs = List.filter g xs.
Proof.
  induction xs as [|x xs IH]; [done|]. intros H. simpl.
  rewrite (H x) by apply list_elem_of_here.
  rewrite IH; [done|]. intros y Hy. by apply H, list_elem_of_further.
Qed.

Lemma delivered_to_heap w w' name m :
  heap w' !! m = heap w !! m → delivered_to w' name m = delivered_to w name m.
Proof. unfold delivered_to, field. by intros ->. Qed.

Lemma deliveries_ext w w' log name r :
  (∀ m, m ∈ log → heap w' !! m = heap w !! m) →
  deliveries_since w' log name r = deliveries_since w log name r.
Proof.
  intros Hext. unfold deliveries_since. f_equal. apply filter_ext_elem.
  intros m Hm. by rewrite (delivered_to_heap w w') by by apply Hext.
Qed.

Lemma deliveries_snoc w log name r m :
  deliveries_since w (log ++ [m]) name r =
    (deliveries_since w log name r +
     if Nat.ltb r m && delivered_to w name m then 1 else 0)%nat.
Proof.
  unfold deliveries_since. rewrite List.filter_app, length_app. simpl.
  by destruct (_ && _).
Qed.

(** The counters stay right when the counter fields and the logged
    messages stay as they are. *)
Lemma counts_ok_frame w w' e :
  (∀ r, r ∈ dict_values (registered_services e) →
     field w' r "message_count" = field w r "message_count") →
  (∀ m, m ∈ processed_messages e → heap w' !! m = heap w !! m) →
  counts_ok w e → counts_ok w' e.
Proof.
  intros Hrec Hmsg Hcnt name r Hget.
  rewrite Hrec by by eapply dict_get_values.
  rewrite (deliveries_ext w w') by done. by apply Hcnt.
Qed.

Lemma logged_allocated w e m :
  engine_inv w e → m ∈ processed_messages e →
  (m < length (heap w))%nat ∧ m ∉ dict_values (registered_services e).
Proof.
  intros (_ & Hlogs & Hmsgs) Hm. rewrite <- Hlogs in Hm.
  destruct (Hmsgs m Hm) as [Hres Hnot].
  split; [by apply delivered_or_error_lt|done].
Qed.

Lemma counts_ok_send w e source target payload m w' e' :
  engine_inv w e → counts_ok w e →
  send_message clock e source target payload w = Ret (m, e') w' →
  counts_ok w' e'.
Proof.
  intros Hinv Hcnt Hsend. pose proof Hinv as (Hok & _).
  assert (∀ x, x ∈ processed_messages e → heap w' !! x = heap w !! x) as Hold.
  { intros x Hx. destruct (logged_allocated w e x Hinv Hx).
    by eapply send_message_frame. }
  destruct (dict_get target (registered_services e)) as [rt|] eqn:Hget.
  - destruct (send_message_delivers clock e source target payload w rt
                Hok Hget)
      as (d & n & w1 & Hd & Hn & Hsend1 & Hm & Hr & _ & Hframe & _).
    rewrite Hsend1 in Hsend. injection Hsend as <- <- <-.
    pose proof (lookup_lt_Some _ _ _ Hd) as Hlt.
    intros name r Hget'. simpl in *.
    rewrite deliveries_snoc, (deliveries_ext w w1) by done.
    specialize (Hcnt name r Hget'). unfold field in Hcnt.
    destruct (String.eqb_spec name target) as [->|Hne].
    + assert (r = rt) as -> by congruence.
      rewrite Hd, Hn in Hcnt. injection Hcnt as ->.
      unfold field at 1. rewrite Hr, dict_get_set_eq.
      apply Nat.ltb_lt in Hlt as ->.
      unfold delivered_to, field. rewrite Hm. simpl.
      rewrite String.eqb_refl. simpl. do 2 f_equal. lia.
    + assert (r ≠ rt) as Hr'.
      { intros ->. apply Hne. destruct Hok as [[_ Hnd] _].
        by eapply dict_get_inj. }
      unfold field at 1. rewrite Hframe; [|by eapply registry_ok_lt,
                                             dict_get_values|done].
      rewrite Hcnt. unfold delivered_to, field. rewrite Hm. simpl.
      apply String.eqb_neq in Hne. rewrite String.eqb_sym, Hne.
      rewrite andb_false_r. by rewrite Nat.add_0_r.
  - rewrite send_message_unregistered in Hsend by done.
    injection Hsend as <- <- <-. intros name r Hget'. simpl in *.
    rewrite deliveries_snoc. set (w1 := World _ _ _).
    rewrite (deliveries_ext w w1) by done.
    unfold field at 1. simpl. rewrite lookup_app_l
      by by eapply registry_ok_lt, dict_get_values.
    specialize (Hcnt name r Hget'). unfold field in Hcnt. rewrite Hcnt.
    unfold delivered_to, field. simpl. rewrite lookup_at_end. simpl.
    rewrite !andb_false_r. by rewrite Nat.add_0_r.
Qed.

(** A broadcast is a sequence of [send_message] calls: what every such
    call keeps, the loop keeps. *)
Lemma broadcast_loop_keeps (P : world → t → Prop) source payload :
  (∀ w e target m e' w',
     P w e → send_message clock e source target payload w = Ret (m, e') w' →
     P w' e') →
  ∀ names e results w res e' w',
    P w e →
    broadcast_loop clock e source payload names results w = Ret (res, e') w' →
    P w' e'.
Proof.
  intros Hsend names.
  induction names as [|name rest IH]; intros e results w res e' w' HP Hrun.
  { by injection Hrun as <- <- <-. }
  cbn [broadcast_loop] in Hrun.
  destruct (negb (String.eqb name source)); [|by eapply IH].
  apply bind_Ret in Hrun as ([m e1] & w1 & Hs & Hrun).
  eapply IH; [|done]. by eapply Hsend.
Qed.

Lemma counts_ok_reachable w e : reachable clock round2 w e → counts_ok w e.
Proof.
  induction 1 as [w0 w e Hrun
                 |w e name ty endpoint config w' e' Hreach IH Hrun
                 |w e source target payload m w' e' Hreach IH Hrun
                 |w e source payload ms w' e' Hreach IH Hrun
                 |w e rep w' Hreach IH Hrun
                 |w e h rep h' w' Hreach IH Hrun
                 |w e h rs h' w' Hreach IH Hrun
                 |w e name r status w' Hreach IH Hget Hrun].
  all: try pose proof (reachable_inv clock round2 w e Hreach) as Hinv.
  all: try pose proof Hinv as (Hok & _).
  - injection Hrun as <- <-. by intros name r.
  - rewrite register_service_eq in Hrun. injection Hrun as <- <-.
    intros name' r'. simpl.
    destruct (String.eqb_spec name' name) as [->|Hne].
    + rewrite dict_get_set_eq. intros [= <-].
      unfold field. simpl. rewrite lookup_at_end. simpl. do 2 f_equal.
      unfold deliveries_since. rewrite filter_none; [done|].
      intros m Hm. destruct (logged_allocated w e m Hinv Hm) as [Hlt _].
      apply andb_false_intro1. apply Nat.ltb_ge. lia.
    + rewrite dict_get_set_ne by done. intros Hget.
      set (w1 := World _ _ _).
      rewrite (deliveries_ext w w1).
      * rewrite <- (IH name' r' Hget). unfold field. simpl.
        rewrite lookup_app_l; [done|].
        by eapply registry_ok_lt, dict_get_values.
      * intros m Hm. destruct (logged_allocated w e m Hinv Hm) as [Hlt _].
        simpl. by apply lookup_app_l.
  - by eapply counts_ok_send.
  - unfold broadcast in Hrun.
    refine (proj2 (broadcast_loop_keeps
                     (λ w e, engine_inv w e ∧ counts_ok w e)
                     source payload _ _ e [] w ms e' w' (conj Hinv IH) Hrun)).
    intros w1 e1 target m e2 w2 [Hinv1 Hcnt1] Hsend. split.
    + by eapply engine_inv_send.
    + by eapply counts_ok_send.
  - destruct (report_no_pending clock round2 w e Hinv)
      as (rep0 & w0 & Hrun0 & Hheap & _).
    assert (w0 = w') as -> by congruence.
    eapply counts_ok_frame; [| |done].
    + intros r _. unfold field. by rewrite Hheap.
    + intros m _. by rewrite Hheap.
  - rewrite check_health_eq in Hrun by by apply registry_ok_refs.
    injection Hrun as _ _ <-. by eapply counts_ok_frame.
  - destruct (auto_repair_spec clock h (registered_services e) w)
      as (rs0 & w0 & Hrun0 & _ & _ & Hkeep & Hfix & Hout & _);
      [by apply registry_ok_refs|].
    assert (w0 = w') as -> by congruence.
    eapply counts_ok_frame; [| |done].
    + intros r Hr. unfold field.
      destruct (is_active w r) eqn:Hact; [by rewrite Hkeep|].
      destruct (registry_ok_refs w _ Hok r Hr) as [d Hd].
      rewrite (Hfix r d Hr Hd Hact), Hd. by apply dict_get_set_ne.
    + intros m Hm. apply Hout. by eapply logged_allocated.
  - pose proof (dict_get_values _ _ _ Hget) as Hr.
    unfold setitem in Hrun. destruct (heap w !! r) as [d|] eqn:Hd; [|done].
    injection Hrun as <-. eapply counts_ok_frame; [| |done].
    + intros r' Hr'. unfold field. simpl.
      destruct (decide (r' = r)) as [->|Hne].
      * rewrite list_lookup_insert_eq by by eapply lookup_lt_Some.
        rewrite Hd. by apply dict_get_set_ne.
      * by rewrite list_lookup_insert_ne.
    + intros m Hm. simpl. apply list_lookup_insert_ne. intros ->.
      by destruct (logged_allocated w e m Hinv Hm).
Qed.

(** X23. What a message counter counts. In every reachable state the
    message count of a registered service is the number of messages in the
    processed log that were delivered to its name after its current record
    was created, that is, since the service was last registered. *)
Theorem message_count_counts_deliveries w e name r :
  reachable clock round2 w e →
  get_service_status e name = Some r →
  field w r "message_count" =
    Some (PInt (Z.of_nat (deliveries_since w (processed_messages e) name r))).
Proof. intros Hreach Hget. by apply counts_ok_reachable. Qed.

End Counters.

Lemma message_count_counts_deliveries_witness :
  reachable sample_clock sample_round2 sample_world sample_engine ∧
  IntegrationEngine.get_service_status sample_engine "B" = Some 1%nat ∧
  deliveries_since sample_world
    (IntegrationEngine.processed_messages sample_engine) "B" 1 = 1%nat ∧
  field sample_world 1%nat "message_count" = Some (PInt 1).
Proof.
  assert (IntegrationEngine.get_service_status sample_engine "B" = Some 1%nat)
    as Hget by done.
  split; [exact sample_reachable|]. split; [exact Hget|]. split; [done|].
  exact (message_count_counts_deliveries sample_clock sample_round2
           sample_world sample_engine "B" 1%nat sample_reachable Hget).
Defined.
